(** * maximumSum: longest path through a number pyramid that avoids primes

    A shallow embedding of [src/main.cpp]: the primality test [isPrime], the
    graph builder [readInput] and the solver [DAG::maximumSum] (depth-first
    topological sort, relaxation in that order, extraction of the result).

    Conventions of the embedding:
    - a C++ [int] holding a pyramid value, an edge weight or a path sum is a
      [Z] in the range [INT_MIN .. INT_MAX]; [+], unary [-] and [*] on them
      are the two's-complement operations of a 32-bit machine ([Int.add],
      [Int.neg], [Int.mul]), [%] is [Z.rem]. Where a result leaves the range
      (undefined behaviour in C++) the model takes the wrapped value that
      such a machine computes; the lemmas say where that happens;
    - a vertex id, a row number or a position in a row is a [nat] (they index
      arrays and count loop iterations; a level count below 1 typed at the
      prompt runs no loop iteration, like 0);
    - [edgeList], [visited] and [sum] are arrays: lists read with [!!] and
      updated in place; the stack [s] is a list whose head is the top;
    - the input stream is the list of the numbers still to be read. *)

From Stdlib Require Import ZArith Znumtheory Lia.
From stdpp Require Import base tactics option list numbers.

Local Open Scope Z_scope.

(** ** 32-bit [int] arithmetic *)

Module Int.

Definition INT_MAX : Z := 2147483647.
Definition INT_MIN : Z := -2147483648.

Definition in_range (z : Z) : Prop := INT_MIN <= z <= INT_MAX.

(** The representative of [z] modulo [2^32] in [INT_MIN .. INT_MAX]. *)
Definition wrap (z : Z) : Z := (z + 2147483648) mod 4294967296 - 2147483648.

Definition add (a b : Z) : Z := wrap (a + b).
Definition mul (a b : Z) : Z := wrap (a * b).
Definition neg (a : Z) : Z := wrap (- a).

End Int.

(** ** [isPrime] *)

(** The [for] loop of [isPrime]: [i] starts at 5 and grows by 6; one unit of
    [fuel] is one evaluation of the loop condition. *)
Fixpoint isPrime_loop (fuel : nat) (num i : Z) : option bool :=
  match fuel with
  | O => None
  | S fuel' =>
      if Int.mul i i <=? num then
        if (Z.rem num i =? 0) || (Z.rem num (Int.add i 2) =? 0) then Some false
        else isPrime_loop fuel' num (Int.add i 6)
      else Some true
  end.

(** [isPrime_run] is the function with the loop's outcome kept apart from
    running out of fuel; [isPrime] is what the builder calls. *)
Definition isPrime_run (num : Z) : option bool :=
  if num <=? 1 then Some false
  else if num <=? 3 then Some true
  else if (Z.rem num 2 =? 0) || (Z.rem num 3 =? 0) then Some false
  else isPrime_loop (Z.to_nat num) num 5.

Definition isPrime (num : Z) : bool :=
  match isPrime_run num with
  | Some b => b
  | None => false
  end.

(** ** The graph *)

Record Edge : Type := mkEdge {
  vertexNum : nat;
  edgeWeight : Z (* in negative *)
}.

Record DAG : Type := mkDAG {
  vertexAmount : nat;
  edgeList : list (list Edge)
}.

(** [DAG::DAG]: [vertexAmount] empty adjacency lists. *)
Definition newDAG (vertexAmount : nat) : DAG :=
  mkDAG vertexAmount (replicate vertexAmount []).

(** [DAG::addEdge]: [push_back] on the list of [source]. A [source] outside
    the array is undefined behaviour in the source; the builder never does
    that (lemma [readInput_edges_wf]). *)
Definition addEdge (g : DAG) (source destination : nat) (positiveWeight : Z) : DAG :=
  mkDAG (vertexAmount g)
        (alter (λ l, l ++ [mkEdge destination (Int.neg positiveWeight)])
               source (edgeList g)).

(** The adjacency list of a vertex. *)
Definition edges (g : DAG) (vertex : nat) : list Edge :=
  default [] (edgeList g !! vertex).

(** ** [readInput] *)

(** The state of the builder while it reads: the numbers still in the stream,
    the variable [num], the graph and the running vertex id [index]. *)
Record Builder : Type := mkBuilder {
  stream : list Z;
  num : Z;
  pyramid : DAG;
  index : nat
}.

(** [inFile >> num] (or [cin >> num]): the next number goes to [num]; at the
    end of the stream the extraction fails and [num] keeps its value. *)
Definition extract (b : Builder) : Builder :=
  match stream b with
  | x :: rest => mkBuilder rest x (pyramid b) (index b)
  | [] => b
  end.

(** The body of the inner loop at row [i], position [j], with [index++]. *)
Definition readCell (N i j : nat) (b : Builder) : Builder :=
  let b := extract b in
  let index := index b in
  let num := num b in
  let g := pyramid b in
  let g :=
    if isPrime num then g
    else
      let g :=
        if (j =? 0)%nat then addEdge g (index - i + 1) index num
        else if (j + 1 =? i)%nat then addEdge g (index - i) index num
        else addEdge (addEdge g (index - i) index num) (index - i + 1) index num in
      if (i =? N)%nat then addEdge g index (index + i - j) 0 else g in
  mkBuilder (stream b) num g (S index).

(** [for (int j = 0; j < i; j++, index++)] *)
Definition readRow (N i : nat) (b : Builder) : Builder :=
  foldl (λ b j, readCell N i j b) b (seq 0 i).

(** [for (int i = 2; i <= N; i++)] *)
Definition readRows (N : nat) (b : Builder) : Builder :=
  foldl (λ b i, readRow N i b) b (seq 2 (N - 1)).

(** [for (int i = 1; i <= N; i++) NSum += i;]

    [NSum], the vertex count [NSum + 2] and [index] are [int]s in the source
    and [nat]s here. They agree as long as the vertex count fits an [int],
    which is up to 65535 rows; from 65536 rows on the additions of the
    source overflow and no graph of that size is made. The statements about
    the vertex count, and those that promise a result for every graph,
    carry that bound. *)
Definition levelSum (N : nat) : nat :=
  foldl (λ NSum i, (NSum + i)%nat) 0%nat (seq 1 N).

(** [readInput], both overloads after they have found the level count [N]:
    [input] is the sequence of numbers the stream delivers. *)
Definition readInput (N : nat) (input : list Z) : DAG :=
  let b := extract (mkBuilder input 0 (newDAG (levelSum N + 2)) 0) in
  if isPrime (num b) then pyramid b
  else
    let g := addEdge (pyramid b) 0 1 (num b) in
    pyramid (readRows N (mkBuilder (stream b) (num b) g 2)).

(** [readInput(ifstream&, DAG*&)]: the level count is the number of lines of
    the file, then the numbers are read one after the other. *)
Definition readInputFile (lines : list (list Z)) : DAG :=
  readInput (length lines) (concat lines).

(** ** [DAG::maximumSum] *)

(** The sorting state: the [visited] array and the stack [s] (head = top). *)
Record Sort : Type := mkSort {
  visited : list bool;
  s : list nat
}.

(** The [for] loop of [topologicalSortRecursive] over the adjacency list,
    with the recursive call as a parameter. Reading [visited] outside the
    array is undefined behaviour in the source; such an edge is skipped. *)
Fixpoint visitSuccessors (rec : nat → Sort → option Sort)
    (es : list Edge) (st : Sort) : option Sort :=
  match es with
  | [] => Some st
  | edge :: es' =>
      match visited st !! vertexNum edge with
      | Some false =>
          match rec (vertexNum edge) st with
          | Some st' => visitSuccessors rec es' st'
          | None => None
          end
      | _ => visitSuccessors rec es' st
      end
  end.

(** [DAG::topologicalSortRecursive]; [fuel] bounds the depth of the
    recursion, [None] means it was not enough. *)
Fixpoint topologicalSortRecursive (fuel : nat) (g : DAG) (vertex : nat)
    (st : Sort) : option Sort :=
  match fuel with
  | O => None
  | S fuel' =>
      let st := mkSort (<[vertex := true]> (visited st)) (s st) in
      match visitSuccessors (topologicalSortRecursive fuel' g) (edges g vertex) st with
      | Some st' => Some (mkSort (visited st') (vertex :: s st'))
      | None => None
      end
  end.

(** The first loop of [maximumSum]: every vertex not yet visited starts a
    traversal. The recursion is at most [vertexAmount] deep. *)
Fixpoint sortFrom (g : DAG) (vs : list nat) (st : Sort) : option Sort :=
  match vs with
  | [] => Some st
  | i :: vs' =>
      match visited st !! i with
      | Some false =>
          match topologicalSortRecursive (vertexAmount g) g i st with
          | Some st' => sortFrom g vs' st'
          | None => None
          end
      | _ => sortFrom g vs' st
      end
  end.

(** Step 1: the stack after the sort; popping it gives the list from its
    head on. *)
Definition topologicalSort (g : DAG) : option (list nat) :=
  s <$> sortFrom g (seq 0 (vertexAmount g))
                 (mkSort (replicate (vertexAmount g) false) []).

(** One iteration of the inner relaxation loop: the edge [e] out of [source]. *)
Definition relaxEdge (source : nat) (sum : list Z) (e : Edge) : list Z :=
  match sum !! vertexNum e, sum !! source with
  | Some sv, Some ss =>
      if sv >? Int.add ss (edgeWeight e)
      then <[vertexNum e := Int.add ss (edgeWeight e)]> sum
      else sum
  | _, _ => sum
  end.

(** One iteration of the [while] loop: the vertex popped from the stack. *)
Definition relaxVertex (g : DAG) (sum : list Z) (source : nat) : list Z :=
  match sum !! source with
  | Some ss =>
      if ss =? Int.INT_MAX then sum
      else foldl (relaxEdge source) sum (edges g source)
  | None => sum
  end.

(** Step 2: [sum] after the [while] loop has emptied the stack [order]. *)
Definition relax (g : DAG) (order : list nat) (sum : list Z) : list Z :=
  foldl (relaxVertex g) sum order.

(** The initial [sum] array: [INT_MAX] everywhere, then [sum[0] = 0]. *)
Definition initialSum (vertexAmount : nat) : list Z :=
  <[0%nat := 0]> (replicate vertexAmount Int.INT_MAX).

(** What [maximumSum] prints. *)
Inductive Output : Type :=
  | MaximumSum (value : Z)   (* "Maximum Sum: <value>" *)
  | DoesNotExist.            (* "Maximum sum does not exist." *)

(** Step 3: the scan [for (i = vertexAmount - 1; i >= 0; i--)], here over the
    [n] lowest vertices from the top one down. *)
Fixpoint printSum (sum : list Z) (n : nat) : Output :=
  match n with
  | O => DoesNotExist
  | S i =>
      match sum !! i with
      | Some x => if x =? Int.INT_MAX then printSum sum i else MaximumSum (Int.neg x)
      | None => printSum sum i
      end
  end.

Definition maximumSum (g : DAG) : option Output :=
  match topologicalSort g with
  | Some order =>
      Some (printSum (relax g order (initialSum (vertexAmount g))) (vertexAmount g))
  | None => None
  end.

(** [main] on a file whose lines are [lines]. *)
Definition run (lines : list (list Z)) : option Output :=
  maximumSum (readInputFile lines).

(** ** The shape of the pyramid and of the graph built from it *)

(** [tri n = 1 + 2 + ... + n], the number of cells of the first [n] rows. *)
Fixpoint tri (n : nat) : nat :=
  match n with
  | O => O
  | S m => (tri m + S m)%nat
  end.

(** The vertex of the cell at row [i >= 1], position [j < i]: rows are laid
    out one after the other from vertex 1 on. It is the value of [index] when
    the builder reads that cell, and the cell is the [vertexOf i j]-th number
    of the stream. *)
Definition vertexOf (i j : nat) : nat := (tri (i - 1) + j + 1)%nat.

(** The value of [num] after [k] extractions from [input]: the [k]-th number,
    or the last one there was. *)
Definition numAfter (input : list Z) (k : nat) : Z :=
  default 0 (list.last (take k input)).

(** The calls [addEdge(source, destination, positiveWeight)] of one iteration
    of the inner loop, in the order they are made. *)
Definition cellCalls (N i j index : nat) (num : Z) : list (nat * nat * Z) :=
  if isPrime num then []
  else
    (if (j =? 0)%nat then [((index - i + 1)%nat, index, num)]
     else if (j + 1 =? i)%nat then [((index - i)%nat, index, num)]
     else [((index - i)%nat, index, num); ((index - i + 1)%nat, index, num)])
    ++ (if (i =? N)%nat then [(index, (index + i - j)%nat, 0)] else []).

(** All the calls of [addEdge] that [readInput] makes. *)
Definition pyramidCalls (N : nat) (input : list Z) : list (nat * nat * Z) :=
  if isPrime (numAfter input 1) then []
  else
    (0%nat, 1%nat, numAfter input 1) ::
    (i ← seq 2 (N - 1); j ← seq 0 i;
     cellCalls N i j (vertexOf i j) (numAfter input (vertexOf i j))).

(** The graph after a sequence of calls of [addEdge]. *)
Definition addEdges (g : DAG) (calls : list (nat * nat * Z)) : DAG :=
  foldl (λ g c, addEdge g c.1.1 c.1.2 c.2) g calls.

(** The adjacency list that the calls with source [u] produce. *)
Definition callsFrom (u : nat) (calls : list (nat * nat * Z)) : list Edge :=
  (λ c, mkEdge c.1.2 (Int.neg c.2)) <$> filter (λ c, c.1.1 = u) calls.

(** The builder that has read [k] numbers and built [g]; [index] runs one
    ahead of the numbers read. *)
Definition reading (input : list Z) (k : nat) (g : DAG) : Builder :=
  mkBuilder (drop k input) (numAfter input k) g (S k).

(** The edges that arrive at [v], as pairs of a source and a weight, by
    source; their number is the in-degree of [v]. *)
Definition edgesInto (g : DAG) (v : nat) : list (nat * Z) :=
  u ← seq 0 (vertexAmount g);
  (λ e, (u, edgeWeight e)) <$> filter (λ e, vertexNum e = v) (edges g u).

Definition inDegree (g : DAG) (v : nat) : nat := length (edgesInto g v).

(** Every edge leads to a vertex of the graph with a higher id. *)
Definition increasing (g : DAG) : Prop :=
  length (edgeList g) = vertexAmount g ∧
  ∀ u e, e ∈ edges g u → (u < vertexNum e < vertexAmount g)%nat.

(** ** The order that Step 1 produces *)

(** Every successor of a vertex of the list stands further down the list. *)
Fixpoint topologicallySorted (g : DAG) (order : list nat) : Prop :=
  match order with
  | [] => True
  | u :: rest =>
      (∀ e, e ∈ edges g u → vertexNum e ∈ rest) ∧ topologicallySorted g rest
  end.

(** [u] stands strictly before [v] in the list. *)
Definition before (order : list nat) (u v : nat) : Prop :=
  ∃ l1 l2 l3, order = l1 ++ u :: l2 ++ v :: l3.

(** The state of the sort while the vertices [grey] are being traversed (they
    are marked but not yet on the stack). *)
Record sortInv (g : DAG) (grey : list nat) (st : Sort) : Prop := mkSortInv {
  inv_length : length (visited st) = vertexAmount g;
  inv_visited : ∀ w, visited st !! w = Some true ↔ w ∈ s st ∨ w ∈ grey;
  inv_disjoint : ∀ w, w ∈ s st → w ∉ grey;
  inv_nodup : NoDup (s st);
  inv_sorted : topologicallySorted g (s st)
}.

(** A file that holds a pyramid: line [r + 1] has [r + 1] numbers. *)
Definition triangular (lines : list (list Z)) : Prop :=
  ∀ r row, lines !! r = Some row → length row = S r.


(** The trial division that certifies a prime: no divisor among the [count]
    numbers from [d] on. *)
Fixpoint noDivisorFrom (n d : Z) (count : nat) : bool :=
  match count with
  | O => true
  | S count' => negb (n mod d =? 0) && noDivisorFrom n (d + 1) count'
  end.

(** ** Paths and what the pyramid calls a path *)

(** [path g u v w]: edges of [g] lead from [u] to [v], and their weights add
    up to [w] (as integers, without wrap-around). *)
Inductive path (g : DAG) (u : nat) : nat → Z → Prop :=
  | path_here : path g u u 0
  | path_step v e w :
      path g u v w → e ∈ edges g v → path g u (vertexNum e) (w + edgeWeight e).

(** The weight of every path from the source fits an [int] and is not the
    [INT_MAX] that stands for "not reached", nor [INT_MIN], which has no
    opposite. *)
Definition pathsInRange (g : DAG) : Prop :=
  ∀ v w, path g 0%nat v w → Int.INT_MIN < w < Int.INT_MAX.

(** Every sum is [INT_MAX] or the weight of a path from the source. *)
Definition sound (g : DAG) (sum : list Z) : Prop :=
  ∀ v x, sum !! v = Some x → x = Int.INT_MAX ∨ path g 0%nat v x.

(** [descent input i j t]: a way down the pyramid from the top to row [i],
    position [j], each step going to the position below or to the one on its
    right, over numbers that are not forbidden and add up to [t]. *)
Inductive descent (input : list Z) : nat → nat → Z → Prop :=
  | descent_top a :
      input !! 0%nat = Some a → isPrime a = false → descent input 1 0 a
  | descent_down i j t j' v :
      descent input i j t → j' = j ∨ j' = S j →
      input !! (vertexOf (S i) j' - 1)%nat = Some v → isPrime v = false →
      descent input (S i) j' (t + v).

(** A graph as [DAG::DAG] and [addEdge] with vertices of the graph make it,
    with or without cycles. *)
Definition wellFormed (g : DAG) : Prop :=
  length (edgeList g) = vertexAmount g ∧
  Forall (Forall (λ e, (vertexNum e < vertexAmount g)%nat)) (edgeList g).

(** The state of the traversal while the vertices [grey] are open, on any
    graph. *)
Record visitInv (g : DAG) (grey : list nat) (st : Sort) : Prop := mkVisitInv {
  vis_length : length (visited st) = vertexAmount g;
  vis_visited : ∀ w, visited st !! w = Some true ↔ w ∈ s st ∨ w ∈ grey;
  vis_disjoint : ∀ w, w ∈ s st → w ∉ grey;
  vis_nodup : NoDup (s st);
  vis_grey : NoDup grey
}.

(** * Properties *)

(** ** 32-bit arithmetic *)

Module IntFacts.
Import Int.

(** Goals on the bounds of an [int]. *)
Ltac int_range := unfold in_range, INT_MIN, INT_MAX in *; lia.

Lemma wrap_range z : in_range (wrap z).
Proof. unfold in_range, wrap, INT_MIN, INT_MAX. Z.to_euclidean_division_equations. lia. Qed.

Lemma wrap_id z : in_range z → wrap z = z.
Proof.
  unfold in_range, wrap, INT_MIN, INT_MAX. intros Hz.
  rewrite Z.mod_small; lia.
Qed.

Lemma neg_0 : neg 0 = 0.
Proof. reflexivity. Qed.

Lemma neg_exact v : INT_MIN < v <= INT_MAX → neg v = - v.
Proof.
  unfold INT_MIN, INT_MAX. intros Hv. unfold neg.
  apply wrap_id. int_range.
Qed.

Lemma neg_involutive v : in_range v → neg (neg v) = v.
Proof.
  unfold in_range, INT_MIN, INT_MAX. intros Hv.
  destruct (decide (v = -2147483648)) as [->|Hne]; [reflexivity|].
  rewrite (neg_exact v) by int_range.
  rewrite neg_exact by int_range. lia.
Qed.

Lemma neg_INT_MAX v : in_range v → neg v = INT_MAX ↔ v = - INT_MAX.
Proof.
  unfold in_range, INT_MIN, INT_MAX. intros Hv.
  destruct (decide (v = -2147483648)) as [->|Hne]; [by split|].
  rewrite neg_exact by int_range. lia.
Qed.

Lemma add_0_l v : in_range v → add 0 v = v.
Proof. intros Hv. unfold add. rewrite Z.add_0_l. by apply wrap_id. Qed.

Lemma add_exact a b : in_range (a + b) → add a b = a + b.
Proof. apply wrap_id. Qed.

Lemma mul_exact a b : in_range (a * b) → mul a b = a * b.
Proof. apply wrap_id. Qed.

End IntFacts.

(** ** [isPrime] against primality *)

Section isPrime_facts.
Import Int IntFacts.

(** The three tests before the loop. *)
Lemma isPrime_le_1 n : n <= 1 → isPrime n = false.
Proof.
  intros Hn. unfold isPrime, isPrime_run. by rewrite (proj2 (Z.leb_le n 1)).
Qed.

Lemma isPrime_2_3 n : n = 2 ∨ n = 3 → isPrime n = true.
Proof. by intros [-> | ->]. Qed.

Lemma isPrime_multiple_2_3 n :
  3 < n → Z.rem n 2 = 0 ∨ Z.rem n 3 = 0 → isPrime n = false.
Proof.
  intros Hn Hrem. unfold isPrime, isPrime_run.
  rewrite (proj2 (Z.leb_gt n 1)), (proj2 (Z.leb_gt n 3)) by lia.
  destruct Hrem as [-> | ->]; [done|]. by rewrite orb_true_r.
Qed.

Lemma prime_of_no_small_divisor n :
  1 < n → (∀ d, 1 < d → d * d <= n → ¬ (d | n)) → prime n.
Proof.
  intros Hn Hsmall. apply prime_alt. split; [done|].
  intros d Hd [q Hq].
  assert (1 < q) by nia.
  destruct (Z_le_gt_dec d q).
  - apply (Hsmall d); [lia | nia | by exists q].
  - apply (Hsmall q); [lia | nia | exists d; lia].
Qed.

Lemma not_prime_of_divisor n d : 1 < d < n → (d | n) → ¬ prime n.
Proof. intros Hd Hdiv Hp. apply prime_alt in Hp as [_ Hp]. by apply (Hp d). Qed.

Lemma rem_eqb_divide n d : 0 < d → (Z.rem n d =? 0) = true ↔ (d | n).
Proof. intros Hd. rewrite Z.eqb_eq. apply Z.rem_divide. lia. Qed.

Lemma divide_trans_small n d k : (k | d) → (d | n) → (k | n).
Proof. apply Z.divide_trans. Qed.

(** Six consecutive candidates: those that are not [i] or [i + 2] have a
    factor 2 or 3. *)
Lemma skipped_candidates n i d :
  i mod 6 = 5 → ¬ (2 | n) → ¬ (3 | n) → ¬ (i | n) → ¬ (i + 2 | n) →
  i <= d < i + 6 → ¬ (d | n).
Proof.
  intros Hi H2 H3 Hi0 Hi2 Hd Hdiv.
  assert (d = i ∨ d = i + 1 ∨ d = i + 2 ∨ d = i + 3 ∨ d = i + 4 ∨ d = i + 5)
    as [->|[->|[->|[->|[->| ->]]]]] by lia; try done.
  - apply H2. apply Z.divide_trans with (i + 1); [|done].
    exists ((i + 1) / 2). Z.to_euclidean_division_equations. lia.
  - apply H2. apply Z.divide_trans with (i + 3); [|done].
    exists ((i + 3) / 2). Z.to_euclidean_division_equations. lia.
  - apply H3. apply Z.divide_trans with (i + 4); [|done].
    exists ((i + 4) / 3). Z.to_euclidean_division_equations. lia.
  - apply H2. apply Z.divide_trans with (i + 5); [|done].
    exists ((i + 5) / 2). Z.to_euclidean_division_equations. lia.
Qed.

(** The loop decides primality as long as [i * i] stays an [int]: for the
    numbers below [46337 * 46337] and for all that are not prime. *)
Lemma isPrime_loop_correct fuel : ∀ i n,
  5 <= i → i mod 6 = 5 → i <= n → n <= INT_MAX →
  (∀ d, 1 < d < i → ¬ (d | n)) →
  (n < 2147117569 ∧ i <= 46337) ∨ ¬ prime n →
  n < i + 6 * Z.of_nat fuel →
  ∃ b, isPrime_loop fuel n i = Some b ∧ (b = true ↔ prime n).
Proof.
  unfold INT_MAX. induction fuel as [|fuel IH]; intros i n Hi5 Hmod Hin Hn Hno Hzone Hfuel; [lia|].
  assert (i <= 46340) as Hi.
  { destruct Hzone as [[_ ?]|Hnp]; [lia|].
    destruct (Z_le_gt_dec i 46340); [done|]. exfalso. apply Hnp.
    apply prime_of_no_small_divisor; [lia|].
    intros d Hd Hdd. apply Hno. nia. }
  assert (mul i i = i * i) as Hmul.
  { apply mul_exact. unfold in_range, INT_MIN, INT_MAX. nia. }
  assert (add i 2 = i + 2) as Hadd2.
  { apply add_exact. int_range. }
  assert (add i 6 = i + 6) as Hadd6.
  { apply add_exact. int_range. }
  cbn [isPrime_loop]. rewrite Hmul, Hadd2, Hadd6.
  destruct (Z.leb_spec (i * i) n) as [Hle|Hgt].
  - destruct (Z.rem n i =? 0) eqn:Hr1; cbn [orb].
    { apply rem_eqb_divide in Hr1; [|lia]. exists false. split; [done|].
      split; [done|]. intros Hp. exfalso. revert Hp.
      apply (not_prime_of_divisor n i); [nia|done]. }
    destruct (Z.rem n (i + 2) =? 0) eqn:Hr2.
    { apply rem_eqb_divide in Hr2; [|lia]. exists false. split; [done|].
      split; [done|]. intros Hp. exfalso. revert Hp.
      apply (not_prime_of_divisor n (i + 2)); [nia|done]. }
    apply IH; [lia| |nia|done| | |lia].
    + Z.to_euclidean_division_equations. lia.
    + intros d Hd. destruct (Z_lt_le_dec d i); [apply Hno; lia|].
      apply (skipped_candidates n i); [done| | | | |lia].
      * apply Hno; lia.
      * apply Hno; lia.
      * intros Hdiv. apply (rem_eqb_divide n i) in Hdiv; [congruence|lia].
      * intros Hdiv. apply (rem_eqb_divide n (i + 2)) in Hdiv; [congruence|lia].
    + destruct Hzone as [[Hlt _]|Hnp]; [left|by right].
      split; [done|]. assert (i < 46337) by nia.
      Z.to_euclidean_division_equations. lia.
  - exists true. split; [done|]. split; [|done]. intros _.
    apply prime_of_no_small_divisor; [lia|].
    intros d Hd Hdd. apply Hno. nia.
Qed.

Lemma isPrime_run_correct n :
  n <= INT_MAX → n < 2147117569 ∨ ¬ prime n →
  ∃ b, isPrime_run n = Some b ∧ (b = true ↔ prime n).
Proof.
  intros Hn Hzone. unfold isPrime_run.
  destruct (Z.leb_spec n 1) as [Hle1|Hgt1].
  { exists false. split; [done|]. split; [done|].
    intros Hp. apply prime_alt in Hp as [? _]. lia. }
  destruct (Z.leb_spec n 3) as [Hle3|Hgt3].
  { exists true. split; [done|]. split; [|done]. intros _.
    apply prime_of_no_small_divisor; [lia|]. intros d Hd Hdd. nia. }
  destruct (Z.rem n 2 =? 0) eqn:Hr2; cbn [orb].
  { apply rem_eqb_divide in Hr2; [|lia]. exists false. split; [done|].
    split; [done|]. intros Hp. exfalso. revert Hp.
    apply (not_prime_of_divisor n 2); [lia|done]. }
  destruct (Z.rem n 3 =? 0) eqn:Hr3.
  { apply rem_eqb_divide in Hr3; [|lia]. exists false. split; [done|].
    split; [done|]. intros Hp. exfalso. revert Hp.
    apply (not_prime_of_divisor n 3); [|done].
    split; [lia|]. destruct (decide (n = 3)); lia. }
  assert (¬ (2 | n)) as H2.
  { intros Hdiv. apply (rem_eqb_divide n 2) in Hdiv; [congruence|lia]. }
  assert (¬ (3 | n)) as H3.
  { intros Hdiv. apply (rem_eqb_divide n 3) in Hdiv; [congruence|lia]. }
  assert (n ≠ 4) by (intros ->; apply H2; by exists 2).
  apply isPrime_loop_correct; [lia|done|lia|done| | |lia].
  - intros d Hd. assert (d = 2 ∨ d = 3 ∨ d = 4) as [->|[->| ->]] by lia; [done|done|].
    intros Hdiv. apply H2. apply Z.divide_trans with 4; [by exists 2|done].
  - destruct Hzone as [?|?]; [left; lia|by right].
Qed.

(** Below [46337 * 46337 = 2147117569] the test is exact. *)
Lemma isPrime_spec n : n < 2147117569 → isPrime n = true ↔ prime n.
Proof.
  intros Hn. unfold isPrime.
  destruct (isPrime_run_correct n) as (b & -> & Hb); [unfold INT_MAX; lia|by left|done].
Qed.

(** A number that is not prime is never taken for a prime. *)
Lemma isPrime_not_prime n : in_range n → ¬ prime n → isPrime n = false.
Proof.
  intros [_ Hn] Hnp. unfold isPrime.
  destruct (isPrime_run_correct n) as (b & -> & Hb); [done|by right|].
  destruct b; [|done]. exfalso. by apply Hnp, Hb.
Qed.

(** What the test takes for a prime is one. *)
Lemma isPrime_sound n : in_range n → isPrime n = true → prime n.
Proof.
  intros Hn Hp. destruct (prime_dec n) as [|Hnp]; [done|].
  rewrite isPrime_not_prime in Hp; done.
Qed.

(** The loop ends for every [int]: the candidates reach [num] itself at the
    latest, whatever [i * i] wraps to. *)
Lemma isPrime_loop_total fuel : ∀ i n,
  5 <= i <= n → n <= INT_MAX → i mod 6 = 5 → n mod 6 = 1 ∨ n mod 6 = 5 →
  n - i < 6 * Z.of_nat fuel →
  is_Some (isPrime_loop fuel n i).
Proof.
  unfold INT_MAX. induction fuel as [|fuel IH]; intros i n Hi Hn Hmod Hnmod Hfuel; [lia|].
  cbn [isPrime_loop]. destruct (mul i i <=? n); [|done].
  destruct (Z.rem n i =? 0) eqn:Hr1; cbn [orb]; [done|].
  assert (i ≠ n) as Hne.
  { intros ->. rewrite Z.rem_same in Hr1 by lia. done. }
  assert (i + 2 <= n) by (Z.to_euclidean_division_equations; lia).
  assert (add i 2 = i + 2) as ->.
  { apply add_exact. int_range. }
  destruct (Z.rem n (i + 2) =? 0) eqn:Hr2; [done|].
  assert (i + 2 ≠ n) as Hne2.
  { intros <-. rewrite Z.rem_same in Hr2 by lia. done. }
  assert (i + 6 <= n) by (Z.to_euclidean_division_equations; lia).
  assert (add i 6 = i + 6) as ->.
  { apply add_exact. int_range. }
  apply IH; [lia|lia| |done|lia].
  Z.to_euclidean_division_equations. lia.
Qed.

Lemma isPrime_run_total n : in_range n → is_Some (isPrime_run n).
Proof.
  intros [_ Hn]. unfold isPrime_run.
  destruct (n <=? 1) eqn:H1; [done|]. destruct (n <=? 3) eqn:H3; [done|].
  apply Z.leb_gt in H1, H3.
  destruct (Z.rem n 2 =? 0) eqn:Hr2; cbn [orb]; [done|].
  destruct (Z.rem n 3 =? 0) eqn:Hr3; [done|].
  apply Z.eqb_neq in Hr2, Hr3.
  rewrite Z.rem_mod_nonneg in Hr2, Hr3 by lia.
  apply isPrime_loop_total; [|done|done| |lia];
    Z.to_euclidean_division_equations; lia.
Qed.

Lemma noDivisorFrom_spec n count : ∀ d,
  0 < d → noDivisorFrom n d count = true →
  ∀ x, d <= x < d + Z.of_nat count → ¬ (x | n).
Proof.
  induction count as [|count IH]; intros d Hd Hcheck x Hx Hdiv; [lia|].
  cbn [noDivisorFrom] in Hcheck. apply andb_true_iff in Hcheck as [Hhere Hrest].
  destruct (decide (x = d)) as [->|Hne].
  - apply Z.mod_divide in Hdiv; [|lia]. rewrite Hdiv in Hhere. done.
  - apply (IH (d + 1)) with x; [lia|done|lia|done].
Qed.

Lemma prime_INT_MAX : prime INT_MAX.
Proof.
  apply prime_of_no_small_divisor; [done|].
  intros d Hd Hdd. unfold INT_MAX in *.
  apply (noDivisorFrom_spec 2147483647 (Z.to_nat 46339) 2);
    [lia|vm_compute; reflexivity|].
  rewrite Z2Nat.id by lia. nia.
Qed.

(** At [INT_MAX] the product [i * i] leaves the [int] range from
    [i = 46343] on, the loop condition [i * i <= num] can no longer fail,
    and the loop runs until [i + 2] is the number itself. *)
Lemma isPrime_loop_INT_MAX fuel : ∀ i,
  5 <= i <= 2147483645 → i mod 6 = 5 →
  2147483645 - i < 6 * Z.of_nat fuel →
  isPrime_loop fuel INT_MAX i = Some false.
Proof.
  induction fuel as [|fuel IH]; intros i Hi Hmod Hfuel; [lia|].
  cbn [isPrime_loop].
  destruct (Z.leb_spec (mul i i) INT_MAX) as [_|Hgt];
    [|pose proof (wrap_range (i * i)) as [_ ?]; unfold mul in Hgt; lia].
  destruct (Z.rem INT_MAX i =? 0); cbn [orb]; [done|].
  assert (add i 2 = i + 2) as ->.
  { apply add_exact. int_range. }
  destruct (decide (i = 2147483645)) as [->|Hne]; [done|].
  destruct (Z.rem INT_MAX (i + 2) =? 0); [done|].
  assert (i + 6 <= 2147483645) by (Z.to_euclidean_division_equations; lia).
  assert (add i 6 = i + 6) as ->.
  { apply add_exact. int_range. }
  apply IH; [lia| |lia]. Z.to_euclidean_division_equations. lia.
Qed.

Lemma isPrime_INT_MAX : isPrime INT_MAX = false.
Proof.
  unfold isPrime, isPrime_run.
  change (INT_MAX <=? 1) with false. change (INT_MAX <=? 3) with false.
  change ((Z.rem INT_MAX 2 =? 0) || (Z.rem INT_MAX 3 =? 0)) with false.
  cbv iota. rewrite isPrime_loop_INT_MAX; [done|done|done|].
  rewrite Z2Nat.id; done.
Qed.

End isPrime_facts.

(** ** The builder, as the list of its calls of [addEdge] *)

Section builder_facts.
Local Open Scope nat_scope.

Lemma tri_mono a b : a ≤ b → tri a ≤ tri b.
Proof. induction 1 as [|b _ IH]; cbn [tri]; lia. Qed.

Lemma tri_ge n : n ≤ tri n.
Proof. induction n as [|n IH]; cbn [tri]; lia. Qed.

Lemma tri_formula n : 2 * tri n = n * (n + 1).
Proof. induction n as [|n IH]; cbn [tri]; lia. Qed.

Lemma levelSum_tri N : levelSum N = tri N.
Proof.
  unfold levelSum. induction N as [|N IH]; [done|].
  rewrite seq_S, foldl_snoc, IH. cbn [tri]. lia.
Qed.

Lemma vertexOf_S i j : vertexOf (S i) j = tri i + j + 1.
Proof. unfold vertexOf. by rewrite Nat.sub_succ, Nat.sub_0_r. Qed.

(** The rows occupy disjoint ranges of vertex ids. *)
Lemma vertexOf_range i j : 1 ≤ i → j < i → tri (i - 1) < vertexOf i j ≤ tri i.
Proof.
  intros Hi Hj. destruct i as [|i]; [lia|].
  rewrite vertexOf_S, Nat.sub_succ, Nat.sub_0_r. cbn [tri]. lia.
Qed.

Lemma vertexOf_inj i j i' j' :
  1 ≤ i → j < i → 1 ≤ i' → j' < i' →
  vertexOf i j = vertexOf i' j' → i = i' ∧ j = j'.
Proof.
  intros Hi Hj Hi' Hj' Heq.
  pose proof (vertexOf_range i j Hi Hj) as Hr.
  pose proof (vertexOf_range i' j' Hi' Hj') as Hr'.
  assert (i = i') as <-.
  { destruct (Nat.lt_trichotomy i i') as [Hlt|[?|Hlt]]; [|done|].
    - pose proof (tri_mono i (i' - 1)). lia.
    - pose proof (tri_mono i' (i - 1)). lia. }
  split; [done|]. unfold vertexOf in Heq. lia.
Qed.

(** The parents of a cell, as vertices. *)
Lemma vertexOf_left_parent i j :
  2 ≤ i → 0 < j < i → vertexOf (i - 1) (j - 1) = vertexOf i j - i.
Proof.
  intros Hi Hj. destruct i as [|[|i]]; [lia|lia|].
  rewrite Nat.sub_succ, Nat.sub_0_r, !vertexOf_S. cbn [tri]. lia.
Qed.

Lemma vertexOf_right_parent i j :
  2 ≤ i → j < i - 1 → vertexOf (i - 1) j = vertexOf i j - i + 1.
Proof.
  intros Hi Hj. destruct i as [|[|i]]; [lia|lia|].
  rewrite Nat.sub_succ, Nat.sub_0_r, !vertexOf_S. cbn [tri]. lia.
Qed.

(** *** Reading *)

Lemma numAfter_lookup input k v : input !! k = Some v → numAfter input (S k) = v.
Proof. intros Hk. unfold numAfter. by rewrite (take_S_r _ _ _ Hk), last_snoc. Qed.

Lemma extract_spec input k g idx :
  extract (mkBuilder (drop k input) (numAfter input k) g idx)
  = mkBuilder (drop (S k) input) (numAfter input (S k)) g idx.
Proof.
  unfold extract. cbn [stream pyramid index].
  destruct (input !! k) as [x|] eqn:Hk.
  - rewrite (drop_S _ _ _ Hk). by rewrite (numAfter_lookup _ _ _ Hk).
  - apply lookup_ge_None in Hk.
    rewrite !drop_ge by lia. unfold numAfter. by rewrite !take_ge by lia.
Qed.

Lemma addEdges_app g cs cs' : addEdges g (cs ++ cs') = addEdges (addEdges g cs) cs'.
Proof. apply foldl_app. Qed.

Lemma readCell_spec N i j input k g :
  readCell N i j (reading input k g)
  = reading input (S k)
      (addEdges g (cellCalls N i j (S k) (numAfter input (S k)))).
Proof.
  unfold readCell, reading. rewrite extract_spec. cbn [stream num pyramid index].
  f_equal. unfold cellCalls.
  destruct (isPrime _); [done|].
  rewrite addEdges_app.
  destruct (j =? 0); [|destruct (j + 1 =? i)]; by destruct (i =? N).
Qed.

Lemma readRow_spec N i input k g :
  readRow N i (reading input k g)
  = reading input (k + i)
      (addEdges g (j ← seq 0 i;
                   cellCalls N i j (S (k + j)) (numAfter input (S (k + j))))).
Proof.
  unfold readRow.
  assert (∀ m, foldl (λ b j, readCell N i j b) (reading input k g) (seq 0 m)
    = reading input (k + m)
        (addEdges g (j ← seq 0 m;
           cellCalls N i j (S (k + j)) (numAfter input (S (k + j)))))) as Hm; [|done].
  induction m as [|m IH].
  { cbn. by rewrite Nat.add_0_r. }
  rewrite seq_S, foldl_snoc, IH, readCell_spec, bind_app, addEdges_app.
  rewrite Nat.add_succ_r. f_equal. f_equal.
  cbn. by rewrite app_nil_r.
Qed.

Lemma readRows_prefix N input g m :
  foldl (λ b i, readRow N i b) (reading input 1 g) (seq 2 m)
  = reading input (tri (S m))
      (addEdges g (i ← seq 2 m; j ← seq 0 i;
         cellCalls N i j (vertexOf i j) (numAfter input (vertexOf i j)))).
Proof.
  induction m as [|m IH]; [done|].
  rewrite seq_S, foldl_snoc, IH, readRow_spec, bind_app, addEdges_app.
  do 2 f_equal.
  rewrite bind_cons. change ([] ≫= ?f) with (@nil (nat * nat * Z)). rewrite app_nil_r.
  apply list_bind_ext; [|done]. intros j.
  change (2 + m) with (S (S m)). rewrite vertexOf_S. cbn [tri].
  by replace (S (tri m + S m + j)) with (tri m + S m + j + 1) by lia.
Qed.

Lemma readRows_spec N input g :
  pyramid (readRows N (reading input 1 g))
  = addEdges g (i ← seq 2 (N - 1); j ← seq 0 i;
      cellCalls N i j (vertexOf i j) (numAfter input (vertexOf i j))).
Proof. unfold readRows. by rewrite readRows_prefix. Qed.

(** [readInput] is the empty graph followed by the calls of [addEdge]. *)
Lemma readInput_calls N input :
  readInput N input = addEdges (newDAG (tri N + 2)) (pyramidCalls N input).
Proof.
  unfold readInput, pyramidCalls. rewrite levelSum_tri.
  change (mkBuilder input 0%Z ?g 0) with (mkBuilder (drop 0 input) (numAfter input 0) g 0).
  rewrite extract_spec. cbn [num pyramid stream].
  destruct (isPrime _); [done|].
  change (mkBuilder (drop 1 input) (numAfter input 1) ?g 2) with (reading input 1 g).
  by rewrite readRows_spec.
Qed.

End builder_facts.

(** ** The graph that the calls build *)

Section calls_facts.
Local Open Scope nat_scope.

Lemma filter_nil_forall {A} (P : A → Prop) `{∀ x, Decision (P x)} (l : list A) :
  (∀ x, x ∈ l → ¬ P x) → filter P l = [].
Proof.
  induction l as [|x l IH]; intros Hl; [done|].
  rewrite filter_cons_False by (apply Hl; left).
  apply IH. intros y Hy. apply Hl. by right.
Qed.

Lemma filter_fmap_comm {A B} (f : A → B) (P : B → Prop) `{∀ y, Decision (P y)}
    (l : list A) :
  filter P (f <$> l) = f <$> filter (λ x, P (f x)) l.
Proof.
  induction l as [|x l IH]; [done|].
  rewrite fmap_cons, !filter_cons, IH. by destruct (decide (P (f x))).
Qed.

Lemma filter_bind_nil {A B} (P : B → Prop) `{∀ y, Decision (P y)}
    (f : A → list B) (l : list A) :
  (∀ x, x ∈ l → filter P (f x) = []) → filter P (l ≫= f) = [].
Proof.
  induction l as [|x l IH]; intros Hl; [done|].
  rewrite bind_cons, list.filter_app, Hl by left.
  apply IH. intros y Hy. apply Hl. by right.
Qed.

(** Only one element of the list contributes to the filtered result. *)
Lemma filter_bind_single {A B} (P : B → Prop) `{∀ y, Decision (P y)}
    (f : A → list B) (l : list A) (a : A) :
  NoDup l → a ∈ l → (∀ x, x ∈ l → x ≠ a → filter P (f x) = []) →
  filter P (l ≫= f) = filter P (f a).
Proof.
  induction 1 as [|x l Hx Hnd IH]; intros Ha Hl; [by apply elem_of_nil in Ha|].
  rewrite bind_cons, list.filter_app.
  apply elem_of_cons in Ha as [->|Ha].
  - rewrite filter_bind_nil, app_nil_r; [done|].
    intros y Hy. apply Hl; [by right|]. by intros ->.
  - rewrite Hl; [|by left|by intros ->].
    apply IH; [done|]. intros y Hy. apply Hl. by right.
Qed.

Lemma bind_seq_nil {B} (f : nat → list B) n : ∀ lo,
  (∀ u, lo ≤ u < lo + n → f u = []) → seq lo n ≫= f = [].
Proof.
  induction n as [|n IH]; intros lo Hf; [done|].
  cbn [seq]. rewrite bind_cons, Hf by lia. apply IH. intros u Hu. apply Hf. lia.
Qed.

Lemma bind_seq_single {B} (f : nat → list B) lo n a :
  lo ≤ a < lo + n → (∀ u, lo ≤ u < lo + n → u ≠ a → f u = []) →
  seq lo n ≫= f = f a.
Proof.
  intros Ha Hf.
  replace n with ((a - lo) + S (lo + n - a - 1)) by lia.
  rewrite seq_app, bind_app. cbn [seq]. rewrite bind_cons.
  rewrite !bind_seq_nil; [|intros u Hu; apply Hf; lia..].
  replace (lo + (a - lo)) with a by lia. by rewrite app_nil_r.
Qed.

Lemma bind_seq_pair {B} (f : nat → list B) lo n a b :
  lo ≤ a → a < b → b < lo + n →
  (∀ u, lo ≤ u < lo + n → u ≠ a → u ≠ b → f u = []) →
  seq lo n ≫= f = f a ++ f b.
Proof.
  intros Ha Hab Hb Hf.
  replace n with ((b - lo) + (lo + n - b)) by lia.
  rewrite seq_app, bind_app. replace (lo + (b - lo)) with b by lia.
  rewrite (bind_seq_single f lo _ a), (bind_seq_single f b _ b); [done|lia| |lia|].
  - intros u Hu Hne. apply Hf; lia.
  - intros u Hu Hne. apply Hf; lia.
Qed.

Lemma vertexAmount_addEdges g cs : vertexAmount (addEdges g cs) = vertexAmount g.
Proof. revert g. induction cs as [|c cs IH]; intros g; [done|]. cbn. by rewrite IH. Qed.

Lemma length_edgeList_addEdges g cs :
  length (edgeList (addEdges g cs)) = length (edgeList g).
Proof.
  revert g. induction cs as [|c cs IH]; intros g; [done|].
  cbn. rewrite IH. cbn. apply length_alter.
Qed.

Lemma edgeList_addEdges g cs u :
  edgeList (addEdges g cs) !! u = (λ l, l ++ callsFrom u cs) <$> edgeList g !! u.
Proof.
  revert g. induction cs as [|c cs IH]; intros g.
  { cbn. destruct (edgeList g !! u); cbn; [|done]. by rewrite app_nil_r. }
  change (addEdges g (c :: cs)) with (addEdges (addEdge g c.1.1 c.1.2 c.2) cs).
  rewrite IH. cbn [addEdge edgeList]. rewrite list_lookup_alter.
  unfold callsFrom. rewrite filter_cons.
  destruct (decide (c.1.1 = u)) as [->|Hne].
  - destruct (edgeList g !! _); cbn; [|done]. by rewrite <- app_assoc.
  - done.
Qed.

Lemma edges_addEdges_new V cs u :
  edges (addEdges (newDAG V) cs) u = if decide (u < V) then callsFrom u cs else [].
Proof.
  unfold edges. rewrite edgeList_addEdges. cbn [newDAG edgeList].
  destruct (decide (u < V)) as [Hu|Hu].
  - by rewrite lookup_replicate_2.
  - by rewrite (proj1 (lookup_replicate_None _ _ _)) by lia.
Qed.

Lemma elem_of_callsFrom e u cs :
  e ∈ callsFrom u cs ↔ ∃ w, (u, vertexNum e, w) ∈ cs ∧ edgeWeight e = Int.neg w.
Proof.
  unfold callsFrom. rewrite list_elem_of_fmap. split.
  - intros ([[a d] w] & -> & Hc). apply list_elem_of_filter in Hc as [<- Hc].
    by exists w.
  - intros (w & Hc & Hw). exists (u, vertexNum e, w). split.
    + destruct e as [d w']. cbn in *. by subst.
    + by apply list_elem_of_filter.
Qed.

Lemma edgesInto_calls V cs v :
  edgesInto (addEdges (newDAG V) cs) v
  = u ← seq 0 V;
    (λ c, (u, Int.neg c.2)) <$> filter (λ c, c.1.1 = u) (filter (λ c, c.1.2 = v) cs).
Proof.
  unfold edgesInto. rewrite vertexAmount_addEdges. cbn [newDAG vertexAmount].
  apply Forall_bind_ext, list.Forall_forall. intros u Hu%elem_of_seq.
  rewrite edges_addEdges_new, decide_True by lia.
  unfold callsFrom. rewrite filter_fmap_comm, <- list_fmap_compose.
  cbn [vertexNum]. rewrite !list_filter_filter.
  f_equal. apply list_filter_iff. tauto.
Qed.

End calls_facts.

(** ** The calls that [readInput] makes *)

Section pyramid_facts.
Local Open Scope nat_scope.

Lemma elem_of_cellCalls N i j k v c :
  2 ≤ i → c ∈ cellCalls N i j k v →
  isPrime v = false ∧
  ((c.1.2 = k ∧ c.2 = v ∧
    ((c.1.1 = k - i ∧ 0 < j) ∨ (c.1.1 = k - i + 1 ∧ j + 1 ≠ i)))
   ∨ (i = N ∧ c = (k, k + i - j, 0%Z))).
Proof.
  intros Hi. unfold cellCalls. destruct (isPrime v); [by intros ?%elem_of_nil|].
  intros [Hc|Hc]%elem_of_app; (split; [done|]).
  - left. destruct (Nat.eqb_spec j 0) as [->|Hj0]; [|destruct (Nat.eqb_spec (j + 1) i)].
    + apply list_elem_of_singleton in Hc as ->. cbn. intuition lia.
    + apply list_elem_of_singleton in Hc as ->. cbn. intuition lia.
    + apply elem_of_cons in Hc as [->|Hc]; [cbn; intuition lia|].
      apply list_elem_of_singleton in Hc as ->. cbn. intuition lia.
  - right. destruct (Nat.eqb_spec i N); [|by apply elem_of_nil in Hc].
    by apply list_elem_of_singleton in Hc as ->.
Qed.

Lemma elem_of_pyramidCalls N input c :
  c ∈ pyramidCalls N input →
  isPrime (numAfter input 1) = false ∧
  (c = (0, 1, numAfter input 1) ∨
   ∃ i j, 2 ≤ i ≤ N ∧ j < i ∧
     c ∈ cellCalls N i j (vertexOf i j) (numAfter input (vertexOf i j))).
Proof.
  unfold pyramidCalls. destruct (isPrime _); [by intros ?%elem_of_nil|].
  intros [->|Hc]%elem_of_cons; (split; [done|]); [by left|right].
  apply list_elem_of_bind in Hc as (i & Hc & Hi%elem_of_seq).
  apply list_elem_of_bind in Hc as (j & Hc & Hj%elem_of_seq).
  exists i, j. repeat split; [lia..|done].
Qed.

(** The sink is the vertex after the last cell. *)
Lemma sink_vertex N j : 1 ≤ N → j < N → vertexOf N j + N - j = tri N + 1.
Proof.
  intros HN Hj. destruct N as [|N]; [lia|]. rewrite vertexOf_S. cbn [tri]. lia.
Qed.

(** What a call says of its destination: the sink, or the cell whose number
    was read, which then is not forbidden and is the weight. *)
Lemma pyramidCalls_destination N input c :
  c ∈ pyramidCalls N input →
  c.1.1 < c.1.2 ∧
  ((c.1.2 = tri N + 1 ∧ c.2 = 0%Z ∧ 2 ≤ N ∧ tri (N - 1) < c.1.1) ∨
   (1 ≤ c.1.2 ≤ tri (Nat.max N 1) ∧ isPrime (numAfter input c.1.2) = false ∧
    c.2 = numAfter input c.1.2 ∧ c.1.1 ≤ tri (N - 1))).
Proof.
  intros [Hapex [->|(i & j & Hi & Hj & Hc)]]%elem_of_pyramidCalls.
  { cbn. split; [lia|right]. repeat split; [lia| |done|lia].
    pose proof (tri_mono 1 (N `max` 1)). cbn [tri] in *. lia. }
  apply elem_of_cellCalls in Hc as [Hv [(Hd & Hw & Hs)|[-> ->]]]; [| |lia].
  - pose proof (vertexOf_range i j) as Hr.
    pose proof (tri_mono i N). pose proof (tri_mono (i - 1) (N - 1)).
    assert (i ≤ vertexOf i j).
    { destruct i as [|[|i]]; [lia..|]. rewrite vertexOf_S. cbn [tri]. lia. }
    assert (c.1.1 ≤ tri (i - 1)).
    { destruct i as [|i]; [lia|].
      rewrite vertexOf_S, Nat.sub_succ, Nat.sub_0_r in *. lia. }
    split; [lia|right]. rewrite Hd, Hw.
    rewrite Nat.max_l by lia. repeat split; [lia..|done|lia].
  - cbn. pose proof (vertexOf_range N j). rewrite sink_vertex by lia.
    split; [lia|left]. repeat split; lia.
Qed.

Lemma readInput_vertexAmount N input : vertexAmount (readInput N input) = tri N + 2.
Proof. by rewrite readInput_calls, vertexAmount_addEdges. Qed.

Lemma readInput_edges N input u :
  edges (readInput N input) u
  = if decide (u < tri N + 2) then callsFrom u (pyramidCalls N input) else [].
Proof. by rewrite readInput_calls, edges_addEdges_new. Qed.

Lemma elem_of_readInput_edges N input u e :
  e ∈ edges (readInput N input) u →
  ∃ w, (u, vertexNum e, w) ∈ pyramidCalls N input ∧ edgeWeight e = Int.neg w.
Proof.
  rewrite readInput_edges. case_decide; [|by intros ?%elem_of_nil].
  by intros ?%elem_of_callsFrom.
Qed.

(** Every call of [addEdge] names vertices of the graph, and the edges it
    adds go from a vertex to one with a higher id. *)
Lemma readInput_edges_wf N input : increasing (readInput N input).
Proof.
  split.
  - rewrite readInput_calls, length_edgeList_addEdges, vertexAmount_addEdges.
    apply length_replicate.
  - intros u e (w & Hc & _)%elem_of_readInput_edges.
    rewrite readInput_vertexAmount.
    apply pyramidCalls_destination in Hc as [Hlt Hd]. cbn in *.
    assert (tri (N `max` 1) ≤ tri N + 1).
    { destruct N as [|N]; [done|]. rewrite Nat.max_l; lia. }
    destruct Hd as [(? & _)|([_ Hle] & _)]; lia.
Qed.

(** No edge arrives at a cell whose number is forbidden. *)
Lemma no_edge_into_forbidden N input k u e :
  1 ≤ k ≤ tri N → isPrime (numAfter input k) = true →
  e ∈ edges (readInput N input) u → vertexNum e ≠ k.
Proof.
  intros Hk Hp (w & Hc & _)%elem_of_readInput_edges <-.
  apply pyramidCalls_destination in Hc as [_ Hd]. cbn in *.
  destruct Hd as [(? & _)|(_ & ? & _)]; [lia|congruence].
Qed.

(** When the first number is forbidden, nothing is built. *)
Lemma readInput_forbidden_apex N input :
  isPrime (numAfter input 1) = true → readInput N input = newDAG (tri N + 2).
Proof. intros Hp. rewrite readInput_calls. unfold pyramidCalls. by rewrite Hp. Qed.

(** The calls whose destination is the cell [(i, j)]. *)
Lemma callsInto_cell N input i j :
  isPrime (numAfter input 1) = false → 2 ≤ i ≤ N → j < i →
  filter (λ c, c.1.2 = vertexOf i j) (pyramidCalls N input)
  = if isPrime (numAfter input (vertexOf i j)) then []
    else (if decide (0 < j)
          then [(vertexOf i j - i, vertexOf i j, numAfter input (vertexOf i j))]
          else [])
      ++ (if decide (j < i - 1)
          then [(vertexOf i j - i + 1, vertexOf i j, numAfter input (vertexOf i j))]
          else []).
Proof.
  intros Hapex Hi Hj. unfold pyramidCalls. rewrite Hapex.
  pose proof (vertexOf_range i j) as Hr. pose proof (tri_mono 1 (i - 1)) as Hm.
  pose proof (tri_mono i N) as HmN.
  cbn [tri] in Hm. rewrite filter_cons_False by (cbn; lia).
  assert (∀ i' j', 2 ≤ i' ≤ N → j' < i' → (i', j') ≠ (i, j) →
    filter (λ c, c.1.2 = vertexOf i j)
      (cellCalls N i' j' (vertexOf i' j') (numAfter input (vertexOf i' j'))) = [])
    as Hother.
  { intros i' j' Hi' Hj' Hne. apply filter_nil_forall. intros c Hc Hd.
    apply elem_of_cellCalls in Hc as [_ [(Hd' & _)|[HiN ->]]]; [| |lia].
    - apply Hne. rewrite Hd in Hd'.
      apply vertexOf_inj in Hd' as [-> ->]; [done|lia..].
    - cbn in Hd. rewrite HiN, sink_vertex in Hd by lia. lia. }
  rewrite (filter_bind_single _ _ _ i);
    [|apply NoDup_seq|apply elem_of_seq; lia|].
  2:{ intros i' Hi'%elem_of_seq Hne. apply filter_bind_nil.
      intros j' Hj'%elem_of_seq. apply Hother; [lia..|congruence]. }
  rewrite (filter_bind_single _ _ _ j);
    [|apply NoDup_seq|apply elem_of_seq; lia|].
  2:{ intros j' Hj'%elem_of_seq Hne. apply Hother; [lia..|congruence]. }
  unfold cellCalls. destruct (isPrime (numAfter input (vertexOf i j))); [done|].
  rewrite list.filter_app.
  assert (filter (λ c : nat * nat * Z, c.1.2 = vertexOf i j)
            (if i =? N then [(vertexOf i j, vertexOf i j + i - j, 0%Z)] else []) = [])
    as ->.
  { destruct (Nat.eqb_spec i N) as [->|]; [|done].
    apply filter_nil_forall. intros c ->%list_elem_of_singleton. cbn.
    rewrite sink_vertex by lia. lia. }
  rewrite app_nil_r.
  destruct (Nat.eqb_spec j 0) as [->|Hj0]; [|destruct (Nat.eqb_spec (j + 1) i)].
  - rewrite decide_False, decide_True by lia. by rewrite filter_cons_True.
  - rewrite decide_True, decide_False by lia. by rewrite filter_cons_True.
  - rewrite !decide_True by lia. by rewrite !filter_cons_True.
Qed.


End pyramid_facts.

(** ** Step 1: the depth-first topological sort *)

Section sort_facts.
Local Open Scope nat_scope.

Variable g : DAG.
Hypothesis Hg : increasing g.

Lemma topologicallySorted_app l1 l2 :
  topologicallySorted g (l1 ++ l2) → topologicallySorted g l2.
Proof. induction l1 as [|x l1 IH]; [done|]. intros [_ ?]. by apply IH. Qed.

Lemma topologicallySorted_before order u e :
  topologicallySorted g order → u ∈ order → e ∈ edges g u →
  before order u (vertexNum e).
Proof.
  intros Hsorted (l1 & rest & ->)%list_elem_of_split He.
  apply topologicallySorted_app in Hsorted as [Hu _].
  apply Hu, list_elem_of_split in He as (l2 & l3 & ->).
  by exists l1, l2, l3.
Qed.

Lemma lookup_visited_lt grey st w :
  sortInv g grey st → w < vertexAmount g → is_Some (visited st !! w).
Proof. intros Hinv Hw. apply lookup_lt_is_Some. by rewrite (inv_length _ _ _ Hinv). Qed.

Lemma visited_lt grey st w :
  sortInv g grey st → visited st !! w = Some true → w < vertexAmount g.
Proof. intros Hinv Hw%lookup_lt_Some. by rewrite (inv_length _ _ _ Hinv) in Hw. Qed.

(** Marking [u] turns it grey. *)
Lemma sortInv_mark grey st u :
  sortInv g grey st → visited st !! u = Some false →
  sortInv g (u :: grey) (mkSort (<[u := true]> (visited st)) (s st)).
Proof.
  intros [Hlen Hvis Hdis Hnd Hsorted] Hu.
  assert (u ∉ s st) as Hus.
  { intros Hin. assert (visited st !! u = Some true) by (apply Hvis; by left).
    congruence. }
  split; cbn [visited s]; [by rewrite length_insert| | |done|done].
  - intros w. destruct (decide (w = u)) as [->|Hne].
    + rewrite list_lookup_insert_eq by (by apply lookup_lt_Some in Hu).
      split; [intros _; right; left|done].
    + rewrite list_lookup_insert_ne by done. rewrite Hvis, elem_of_cons. tauto.
  - intros w Hw [->|Hwg]%elem_of_cons; [done|]. by apply (Hdis w).
Qed.

(** Pushing [u] once its successors are on the stack. *)
Lemma sortInv_push grey st u :
  sortInv g (u :: grey) st → u ∉ grey →
  (∀ e, e ∈ edges g u → vertexNum e ∈ s st) →
  sortInv g grey (mkSort (visited st) (u :: s st)).
Proof.
  intros [Hlen Hvis Hdis Hnd Hsorted] Hug Hsucc.
  split; cbn [visited s]; [done| | | |done].
  - intros w. rewrite Hvis, !elem_of_cons. tauto.
  - intros w [->|Hw]%elem_of_cons; [done|].
    intros Hwg. apply (Hdis w Hw). by right.
  - apply NoDup_cons_2; [|done]. intros Hin. apply (Hdis u Hin). by left.
Qed.

Section successors.
Variables (fuel u : nat) (grey : list nat).

(** The recursive calls meet their specification. *)
Hypothesis Hrec : ∀ v grey' st,
  vertexAmount g ≤ fuel + v → v < vertexAmount g →
  sortInv g grey' st → visited st !! v = Some false →
  (∀ w, w ∈ grey' → w < v) →
  ∃ st', topologicalSortRecursive fuel g v st = Some st' ∧
         sortInv g grey' st' ∧ ∃ new, s st' = v :: new ++ s st.
Hypothesis Hfuel : vertexAmount g ≤ fuel + S u.
Hypothesis Hgrey : ∀ w, w ∈ grey → w < u.

Lemma visitSuccessors_spec es : ∀ st,
  (∀ e, e ∈ es → u < vertexNum e < vertexAmount g) →
  sortInv g (u :: grey) st →
  ∃ st', visitSuccessors (topologicalSortRecursive fuel g) es st = Some st' ∧
         sortInv g (u :: grey) st' ∧
         (∃ new, s st' = new ++ s st) ∧
         ∀ e, e ∈ es → vertexNum e ∈ s st'.
Proof.
  induction es as [|edge es IH]; intros st Hes Hinv.
  { exists st. split_and!; [done|done|by exists []|by intros e ?%elem_of_nil]. }
  assert (u < vertexNum edge < vertexAmount g) as Hv by (apply Hes; left).
  assert (∀ e, e ∈ es → u < vertexNum e < vertexAmount g) as Hes'
    by (intros e He; apply Hes; by right).
  cbn [visitSuccessors].
  destruct (lookup_visited_lt _ _ (vertexNum edge) Hinv) as [[|] Hlook];
    [lia| |]; rewrite Hlook.
  - (* already visited: it cannot be grey, so it is on the stack *)
    assert (vertexNum edge ∈ s st) as Hin.
    { apply (inv_visited _ _ _ Hinv) in Hlook as [?|[Heq|Hgr]%elem_of_cons];
        [done|lia|]. apply Hgrey in Hgr. lia. }
    destruct (IH st Hes' Hinv) as (st' & Hrun & Hinv' & [new Hnew] & Hsucc).
    exists st'. split_and!; [done..|by exists new|].
    intros e [->|He]%elem_of_cons; [|by apply Hsucc].
    rewrite Hnew. apply elem_of_app. by right.
  - destruct (Hrec (vertexNum edge) (u :: grey) st) as (st1 & -> & Hinv1 & new1 & Hnew1);
      [lia|lia|done|done| |].
    { intros w [->|Hw]%elem_of_cons; [lia|]. apply Hgrey in Hw. lia. }
    destruct (IH st1 Hes' Hinv1) as (st' & Hrun & Hinv' & [new Hnew] & Hsucc).
    exists st'. split_and!; [done..| |].
    + exists (new ++ vertexNum edge :: new1). rewrite Hnew, Hnew1.
      by rewrite <- app_assoc.
    + intros e [->|He]%elem_of_cons; [|by apply Hsucc].
      rewrite Hnew, Hnew1. apply elem_of_app. right. left.
Qed.
End successors.

(** A traversal from an unvisited vertex [u], all grey vertices being
    below [u], ends; it puts [u] and the vertices it reaches on the stack,
    [u] on top, and keeps the stack sorted. *)
Lemma topologicalSortRecursive_spec fuel : ∀ u grey st,
  vertexAmount g ≤ fuel + u → u < vertexAmount g →
  sortInv g grey st → visited st !! u = Some false →
  (∀ w, w ∈ grey → w < u) →
  ∃ st', topologicalSortRecursive fuel g u st = Some st' ∧
         sortInv g grey st' ∧ ∃ new, s st' = u :: new ++ s st.
Proof.
  induction fuel as [|fuel IH]; intros u grey st Hfuel Hu Hinv Hlook Hgrey; [lia|].
  cbn [topologicalSortRecursive].
  destruct (visitSuccessors_spec fuel u grey IH ltac:(lia) Hgrey (edges g u)
              (mkSort (<[u := true]> (visited st)) (s st)))
    as (st' & -> & Hinv' & [new Hnew] & Hsucc).
  { intros e He. by apply Hg. }
  { by apply sortInv_mark. }
  eexists. split; [done|]. split.
  - apply sortInv_push; [done| |done]. intros Hin. apply Hgrey in Hin. lia.
  - exists new. cbn [s] in *. by rewrite Hnew.
Qed.

Lemma sortFrom_spec n : ∀ i st,
  i + n = vertexAmount g → sortInv g [] st →
  (∀ w, w < i → visited st !! w = Some true) →
  ∃ st', sortFrom g (seq i n) st = Some st' ∧ sortInv g [] st' ∧
         ∀ w, w < vertexAmount g → visited st' !! w = Some true.
Proof.
  induction n as [|n IH]; intros i st Hi Hinv Hdone.
  { exists st. split_and!; [done..|]. intros w Hw. apply Hdone. lia. }
  cbn [seq sortFrom].
  destruct (lookup_visited_lt _ _ i Hinv) as [[|] Hlook]; [lia| |]; rewrite Hlook.
  - apply IH; [lia|done|]. intros w Hw.
    destruct (decide (w = i)) as [->|]; [done|]. apply Hdone. lia.
  - destruct (topologicalSortRecursive_spec (vertexAmount g) i [] st)
      as (st1 & -> & Hinv1 & new & Hnew); [lia|lia|done|done| |].
    { by intros w ?%elem_of_nil. }
    apply IH; [lia|done|]. intros w Hw.
    apply (inv_visited _ _ _ Hinv1). left. rewrite Hnew.
    destruct (decide (w = i)) as [->|]; [left|].
    right. apply elem_of_app. right.
    assert (visited st !! w = Some true) as Hvw by (apply Hdone; lia).
    apply (inv_visited _ _ _ Hinv) in Hvw as [?|?%elem_of_nil]; done.
Qed.

(** Step 1 ends, and the stack it leaves holds every vertex once, each
    above all its successors. *)
Theorem topologicalSort_spec :
  ∃ order, topologicalSort g = Some order ∧
           topologicallySorted g order ∧ NoDup order ∧
           ∀ v, v ∈ order ↔ v < vertexAmount g.
Proof.
  destruct (sortFrom_spec (vertexAmount g) 0
              (mkSort (replicate (vertexAmount g) false) []))
    as (st & Hrun & Hinv & Hall); [done| |lia|].
  { split; cbn [visited s]; [apply length_replicate| | |constructor|done].
    - intros w. rewrite lookup_replicate. split; [by intros [? _]|].
      by intros [?%elem_of_nil|?%elem_of_nil].
    - by intros w ?%elem_of_nil. }
  exists (s st). unfold topologicalSort. rewrite Hrun.
  split_and!; [done|apply Hinv..|]. intros v. split.
  - intros Hv. apply (visited_lt [] st); [done|].
    apply (inv_visited _ _ _ Hinv). by left.
  - intros Hv. apply Hall, (inv_visited _ _ _ Hinv) in Hv as [?|?%elem_of_nil]; done.
Qed.

End sort_facts.

(** ** Step 2 and Step 3: relaxation and extraction *)

Section relax_facts.
Local Open Scope nat_scope.

Variable g : DAG.

Lemma length_relaxEdge source sum e : length (relaxEdge source sum e) = length sum.
Proof.
  unfold relaxEdge. destruct (sum !! vertexNum e), (sum !! source); try done.
  case_match; [apply length_insert|done].
Qed.

(** An edge changes the sum of its destination only. *)
Lemma relaxEdge_other source sum e k :
  vertexNum e ≠ k → relaxEdge source sum e !! k = sum !! k.
Proof.
  intros Hne. unfold relaxEdge.
  destruct (sum !! vertexNum e), (sum !! source); try done.
  case_match; [by apply list_lookup_insert_ne|done].
Qed.

Lemma relaxEdges_other source es k : ∀ sum,
  (∀ e, e ∈ es → vertexNum e ≠ k) →
  foldl (relaxEdge source) sum es !! k = sum !! k.
Proof.
  induction es as [|e es IH]; intros sum Hes; [done|].
  cbn [foldl]. rewrite IH by (intros e' He'; apply Hes; by right).
  apply relaxEdge_other, Hes. left.
Qed.

Lemma relaxVertex_other sum source k :
  (∀ e, e ∈ edges g source → vertexNum e ≠ k) →
  relaxVertex g sum source !! k = sum !! k.
Proof.
  intros Hes. unfold relaxVertex. destruct (sum !! source); [|done].
  case_match; [done|]. by apply relaxEdges_other.
Qed.

(** A vertex that no edge enters keeps its sum. *)
Lemma relax_other order k : ∀ sum,
  (∀ u e, e ∈ edges g u → vertexNum e ≠ k) →
  relax g order sum !! k = sum !! k.
Proof.
  unfold relax. induction order as [|u order IH]; intros sum Hk; [done|].
  cbn [foldl]. rewrite IH by done. by apply relaxVertex_other, Hk.
Qed.

(** A vertex whose sum is still [INT_MAX] relaxes nothing. *)
Lemma relaxVertex_unreached sum source :
  sum !! source = Some Int.INT_MAX → relaxVertex g sum source = sum.
Proof. intros Hs. unfold relaxVertex. by rewrite Hs, Z.eqb_refl. Qed.

(** Without an edge out of the source nothing is ever relaxed. *)
Lemma relax_no_source_edge order : ∀ sum,
  edges g 0 = [] →
  (∀ k, 0 < k → sum !! k = Some Int.INT_MAX ∨ sum !! k = None) →
  relax g order sum = sum.
Proof.
  unfold relax. induction order as [|u order IH]; intros sum H0 Hsum; [done|].
  cbn [foldl].
  assert (relaxVertex g sum u = sum) as ->; [|by apply IH].
  destruct (decide (u = 0)) as [->|Hu].
  - unfold relaxVertex. rewrite H0. destruct (sum !! 0); [|done]. by case_match.
  - destruct (Hsum u) as [Hs|Hs]; [lia|by apply relaxVertex_unreached|].
    unfold relaxVertex. by rewrite Hs.
Qed.

Lemma initialSum_source V : 0 < V → initialSum V !! 0 = Some 0%Z.
Proof.
  intros HV. unfold initialSum.
  apply list_lookup_insert_eq. by rewrite length_replicate.
Qed.

Lemma initialSum_other V k : 0 < k < V → initialSum V !! k = Some Int.INT_MAX.
Proof.
  intros Hk. unfold initialSum.
  rewrite list_lookup_insert_ne by lia. apply lookup_replicate_2. lia.
Qed.

Lemma initialSum_beyond V k : V ≤ k → initialSum V !! k = None.
Proof.
  intros Hk. unfold initialSum. apply lookup_ge_None.
  by rewrite length_insert, length_replicate.
Qed.

(** The scan stops at the first sum from the top that is not [INT_MAX]. *)
Lemma printSum_found sum n i x :
  i < n → sum !! i = Some x → x ≠ Int.INT_MAX →
  ∃ y, printSum sum n = MaximumSum y.
Proof.
  intros Hi Hx Hne. induction n as [|n IH]; [lia|].
  cbn [printSum]. destruct (decide (i = n)) as [->|Hin].
  - rewrite Hx. exists (Int.neg x). by rewrite (proj2 (Z.eqb_neq _ _)).
  - destruct (sum !! n) as [y|]; [|apply IH; lia].
    destruct (y =? Int.INT_MAX)%Z; [apply IH; lia|by eexists].
Qed.

Lemma printSum_skip sum n i :
  i ≤ n → (∀ k, i ≤ k < n → sum !! k = Some Int.INT_MAX) →
  printSum sum n = printSum sum i.
Proof.
  intros Hi Hsum. induction n as [|n IH]; [by replace i with 0 by lia|].
  destruct (decide (i = S n)) as [->|Hne]; [done|].
  cbn [printSum]. rewrite Hsum, Z.eqb_refl by lia.
  apply IH; [lia|]. intros k Hk. apply Hsum. lia.
Qed.

Lemma printSum_source_only V :
  0 < V → printSum (initialSum V) V = MaximumSum 0.
Proof.
  intros HV. rewrite (printSum_skip _ V 1); [|lia|].
  - cbn [printSum]. by rewrite initialSum_source.
  - intros k Hk. apply initialSum_other. lia.
Qed.

Hypothesis Hg : increasing g.

Lemma no_edge_into_source u e : e ∈ edges g u → vertexNum e ≠ 0.
Proof. intros He. apply Hg in He. lia. Qed.

(** [sum[0]] is 0 after the relaxation, whatever the order. *)
Lemma relax_source order :
  0 < vertexAmount g →
  relax g order (initialSum (vertexAmount g)) !! 0 = Some 0%Z.
Proof.
  intros HV. rewrite relax_other by apply no_edge_into_source.
  by apply initialSum_source.
Qed.

(** The solver always prints a sum when the graph has a vertex. *)
Lemma maximumSum_prints :
  0 < vertexAmount g → ∃ x, maximumSum g = Some (MaximumSum x).
Proof.
  intros HV. destruct (topologicalSort_spec g Hg) as (order & Hsort & _).
  unfold maximumSum. rewrite Hsort.
  destruct (printSum_found (relax g order (initialSum (vertexAmount g)))
              (vertexAmount g) 0 0%Z) as [y Hy];
    [done|by apply relax_source|done|].
  exists y. by rewrite Hy.
Qed.

(** It prints 0 when no edge leaves the source. *)
Lemma maximumSum_no_source_edge :
  0 < vertexAmount g → edges g 0 = [] → maximumSum g = Some (MaximumSum 0).
Proof.
  intros HV H0. destruct (topologicalSort_spec g Hg) as (order & Hsort & _).
  unfold maximumSum. rewrite Hsort, relax_no_source_edge; [|done|].
  - by rewrite printSum_source_only.
  - intros k Hk. destruct (decide (k < vertexAmount g)).
    + left. apply initialSum_other. lia.
    + right. apply initialSum_beyond. lia.
Qed.

End relax_facts.

(** ** The numbers of a file, cell by cell *)

Section file_facts.
Local Open Scope nat_scope.

Lemma length_concat_triangular (lines : list (list Z)) r :
  triangular lines → r ≤ length lines → length (concat (take r lines)) = tri r.
Proof.
  intros Htri. induction r as [|r IH]; intros Hr; [done|].
  destruct (lookup_lt_is_Some_2 lines r) as [row Hrow]; [lia|].
  rewrite (take_S_r _ _ _ Hrow), concat_app, length_app, IH by lia.
  cbn [concat tri]. rewrite app_nil_r. by rewrite (Htri _ _ Hrow).
Qed.

(** In a file that holds a pyramid, the number read for the cell at row
    [i], position [j] is the [j]-th number of line [i]. *)
Lemma concat_triangular_lookup (lines : list (list Z)) i j row :
  triangular lines → lines !! (i - 1) = Some row → 1 ≤ i → j < i →
  concat lines !! (vertexOf i j - 1) = row !! j.
Proof.
  intros Htri Hrow Hi Hj.
  rewrite <- (take_drop_middle _ _ _ Hrow), concat_app. cbn [concat].
  pose proof (lookup_lt_Some _ _ _ Hrow) as Hlt.
  rewrite lookup_app_r; rewrite length_concat_triangular by (done || lia);
    unfold vertexOf; [|lia].
  replace (tri (i - 1) + j + 1 - 1 - tri (i - 1)) with j by lia.
  apply lookup_app_l. rewrite (Htri _ _ Hrow). lia.
Qed.

End file_facts.

(** * The claims of the specification *)

Section claims.
Local Open Scope nat_scope.

Lemma numAfter_cell input k v : 1 ≤ k → input !! (k - 1) = Some v → numAfter input k = v.
Proof.
  intros Hk Hv. replace k with (S (k - 1)) by lia. by apply numAfter_lookup.
Qed.

Lemma edgesInto_nil g k :
  (∀ u e, e ∈ edges g u → vertexNum e ≠ k) → edgesInto g k = [].
Proof.
  intros Hk. unfold edgesInto. apply bind_seq_nil. intros u _.
  rewrite filter_nil_forall; [done|]. intros e He. by apply (Hk u).
Qed.

(** With a forbidden first number the graph has no edge and the solver
    prints 0. *)
Lemma maximumSum_forbidden_apex N input :
  isPrime (numAfter input 1) = true →
  maximumSum (readInput N input) = Some (MaximumSum 0).
Proof.
  intros Hp. apply maximumSum_no_source_edge.
  - apply readInput_edges_wf.
  - rewrite readInput_vertexAmount. lia.
  - rewrite readInput_forbidden_apex by done.
    unfold edges. cbn [newDAG edgeList]. by rewrite lookup_replicate_2 by lia.
Qed.

(** C1 (the code departs from the claim). The claim: when the number of
    row 1 is prime, the solver reports that no path exists. The code: the
    builder returns at once, and the scan of Step 3 reaches vertex 0, whose
    sum is 0; the solver prints "Maximum Sum: 0", with or without deeper
    rows. *)
Theorem C1_prime_apex_prints_zero :
  isPrime 2 = true ∧
  run [[2%Z]] = Some (MaximumSum 0) ∧
  run [[2%Z]; [4%Z; 6%Z]] = Some (MaximumSum 0).
Proof. split_and!; vm_compute; reflexivity. Qed.

(** C2. The pyramid [[4],[1,6],[2,8,3]]: 2 and 3 are forbidden, the other
    numbers are not, and the solver prints 18 = 4 + 6 + 8. *)
Theorem C2_example_18 :
  isPrime <$> [4; 1; 6; 2; 8; 3]%Z = [false; false; false; true; false; true] ∧
  run [[4]; [1; 6]; [2; 8; 3]]%Z = Some (MaximumSum 18) ∧
  (4 + 6 + 8 = 18)%Z.
Proof. split_and!; vm_compute; reflexivity. Qed.

(** C3. On every graph the builder makes (the vertex count fits an
    [int], as it must for the graph to be made), Step 1 ends, [sum[0]] is
    still 0 after the relaxation, so the scan of Step 3 finds a sum (at
    vertex 0 at the latest): the solver prints "Maximum Sum: x", never
    "Maximum sum does not exist.", and it prints 0 when no edge leaves the
    source. *)
Theorem C3_always_prints_a_sum N input :
  (Z.of_nat (tri N + 2) ≤ Int.INT_MAX)%Z →
  (∃ order, topologicalSort (readInput N input) = Some order ∧
     relax (readInput N input) order
       (initialSum (vertexAmount (readInput N input))) !! 0 = Some 0%Z) ∧
  (∃ x, maximumSum (readInput N input) = Some (MaximumSum x)) ∧
  maximumSum (readInput N input) ≠ Some DoesNotExist ∧
  (edges (readInput N input) 0 = [] →
     maximumSum (readInput N input) = Some (MaximumSum 0)).
Proof.
  intros _. pose proof (readInput_edges_wf N input) as Hg.
  assert (0 < vertexAmount (readInput N input)) as HV
    by (rewrite readInput_vertexAmount; lia).
  destruct (maximumSum_prints _ Hg HV) as [x Hx].
  split_and!.
  - destruct (topologicalSort_spec _ Hg) as (order & Hsort & _).
    exists order. split; [done|]. by apply relax_source.
  - by exists x.
  - by rewrite Hx.
  - by apply maximumSum_no_source_edge.
Qed.

Lemma C3_always_prints_a_sum_witness :
  (Z.of_nat (tri 2 + 2) ≤ Int.INT_MAX)%Z ∧
  edges (readInput 2 [2; 4; 6]%Z) 0 = [] ∧
  maximumSum (readInput 2 [2; 4; 6]%Z) = Some (MaximumSum 0).
Proof.
  split_and!; [by vm_compute|vm_compute; reflexivity|].
  apply (C3_always_prints_a_sum 2 [2; 4; 6]%Z); [by vm_compute|].
  vm_compute. reflexivity.
Defined.




(** For a pyramid of one row whose number [v] is an [int], is not prime
    and is not [-INT_MAX], the solver prints [v]. *)
Lemma single_row_prints_number v :
  Int.in_range v → ¬ prime v → v ≠ (- Int.INT_MAX)%Z →
  run [[v]] = Some (MaximumSum v).
Proof.
  intros Hv Hnp Hne. unfold run, readInputFile. cbn [length concat app].
  rewrite readInput_calls. unfold pyramidCalls.
  change (numAfter [v] 1) with v. rewrite isPrime_not_prime by done.
  cbn [Nat.sub seq mbind list_bind]. cbn [addEdges foldl fst snd tri Nat.add].
  unfold addEdge. cbn [newDAG vertexAmount edgeList replicate alter list_alter app].
  assert (Int.neg v ≠ Int.INT_MAX) as Hw.
  { intros Heq. by apply IntFacts.neg_INT_MAX in Heq. }
  assert (Int.in_range (Int.neg v)) as Hwr by apply IntFacts.wrap_range.
  rewrite <- (IntFacts.neg_involutive v) at 2 by done.
  generalize dependent (Int.neg v). intros w Hw Hwr.
  destruct Hwr as [Hlo Hle]. unfold maximumSum.
  change (topologicalSort (mkDAG 3 [[mkEdge 1 w]; []; []])) with (Some [2; 0; 1]).
  cbn [vertexAmount]. set (g := mkDAG 3 [[mkEdge 1 w]; []; []]).
  change (initialSum 3) with [0%Z; Int.INT_MAX; Int.INT_MAX].
  (* vertex 2 is popped first: not reached *)
  change (relax g [2; 0; 1] ?sum) with (relax g [0; 1] (relaxVertex g sum 2)).
  rewrite relaxVertex_unreached by done.
  (* vertex 0: the edge to vertex 1 is relaxed *)
  change (relax g [0; 1] ?sum) with (relax g [1] (relaxVertex g sum 0)).
  assert (relaxVertex g [0%Z; Int.INT_MAX; Int.INT_MAX] 0 = [0%Z; w; Int.INT_MAX]) as ->.
  { unfold relaxVertex.
    change ([0%Z; Int.INT_MAX; Int.INT_MAX] !! 0) with (Some 0%Z).
    change (0 =? Int.INT_MAX)%Z with false. cbv iota.
    change (edges g 0) with [mkEdge 1 w]. cbn [foldl]. unfold relaxEdge.
    cbn [vertexNum edgeWeight].
    change ([0%Z; Int.INT_MAX; Int.INT_MAX] !! 1) with (Some Int.INT_MAX).
    change ([0%Z; Int.INT_MAX; Int.INT_MAX] !! 0) with (Some 0%Z). cbv iota.
    rewrite IntFacts.add_0_l by done.
    by rewrite (proj2 (Z.gtb_gt _ _)) by lia. }
  (* vertex 1 has no edge *)
  change (relax g [1] ?sum) with (relaxVertex g sum 1).
  assert (relaxVertex g [0%Z; w; Int.INT_MAX] 1 = [0%Z; w; Int.INT_MAX]) as ->.
  { unfold relaxVertex. change ([0%Z; w; Int.INT_MAX] !! 1) with (Some w).
    cbv iota. change (edges g 1) with (@nil Edge).
    by destruct (w =? Int.INT_MAX)%Z. }
  (* the scan: vertex 2 is passed over, vertex 1 is printed *)
  cbn [printSum]. change ([0%Z; w; Int.INT_MAX] !! 2) with (Some Int.INT_MAX).
  cbv iota beta. rewrite Z.eqb_refl.
  change ([0%Z; w; Int.INT_MAX] !! 1) with (Some w). cbv iota beta.
  by rewrite (proj2 (Z.eqb_neq w Int.INT_MAX)) by done.
Qed.

(** C5 (the code departs from the claim). The claim: for a pyramid of one
    row whose number [v] is not prime the solver prints [v]. The code at
    [v = -2147483647 = -INT_MAX], which is not prime and which the builder
    does not take for one: the weight of the edge into the cell is
    [INT_MAX], the value that marks a vertex as not reached, so
    [sum[1] > 0 + INT_MAX] is false, [sum[1]] is never set, and the scan
    of Step 3 goes on to vertex 0: the solver prints 0. For the number next
    to it, as for every other one ([single_row_prints_number]), it prints
    the number. *)
Theorem C5_minus_INT_MAX_prints_zero :
  Int.in_range (-2147483647) ∧ ¬ prime (-2147483647) ∧
  isPrime (-2147483647) = false ∧
  Int.neg (-2147483647) = Int.INT_MAX ∧
  run [[(-2147483647)%Z]] = Some (MaximumSum 0) ∧
  run [[(-2147483646)%Z]] = Some (MaximumSum (-2147483646)).
Proof.
  split_and!; [IntFacts.int_range| |vm_compute; reflexivity..].
  intros Hp. apply prime_alt in Hp as [? _]. lia.
Qed.




(** C7 as the specification states it fails when the first number is
    forbidden: for [[2],[4,6]] the cell of the 4 gets no edge from its
    parent. *)
Lemma C7_counterexample :
  ¬ (∀ N input i j v,
       2 ≤ i ≤ N → j < i →
       input !! (vertexOf i j - 1) = Some v → isPrime v = false →
       edgesInto (readInput N input) (vertexOf i j)
       = (if decide (0 < j) then [(vertexOf i j - i, Int.neg v)] else [])
         ++ (if decide (j < i - 1) then [(vertexOf i j - i + 1, Int.neg v)] else [])).
Proof.
  intros Hclaim. specialize (Hclaim 2 [2; 4; 6]%Z 2 0 4%Z).
  vm_compute in Hclaim. discriminate Hclaim; [lia|lia|done|done].
Qed.

(** C7 (amended). When the first number is not forbidden: for a row
    [i >= 2] and a position [j] whose number [v] is not forbidden, the edges
    into the vertex [index] of that cell are exactly: one from the left
    parent (row [i - 1], position [j - 1], vertex [index - i]) when
    [j > 0], and one from the right parent (row [i - 1], position [j],
    vertex [index - i + 1]) when [j < i - 1], each with the weight [- v]
    (as [int] negation). *)
Theorem C7_parent_edges N input a i j v :
  input !! 0 = Some a → isPrime a = false →
  2 ≤ i ≤ N → j < i →
  input !! (vertexOf i j - 1) = Some v → isPrime v = false →
  edgesInto (readInput N input) (vertexOf i j)
  = (if decide (0 < j) then [(vertexOf i j - i, Int.neg v)] else [])
    ++ (if decide (j < i - 1) then [(vertexOf i j - i + 1, Int.neg v)] else [])
  ∧ (0 < j → vertexOf (i - 1) (j - 1) = vertexOf i j - i)
  ∧ (j < i - 1 → vertexOf (i - 1) j = vertexOf i j - i + 1).
Proof.
  intros Ha Hpa Hi Hj Hv Hpv. pose proof (vertexOf_range i j) as Hr.
  pose proof (tri_mono i N). pose proof (tri_ge (i - 1)).
  apply (numAfter_lookup input 0) in Ha. apply numAfter_cell in Hv; [|lia].
  split_and!; [|intros; apply vertexOf_left_parent; lia
               |intros; apply vertexOf_right_parent; lia].
  rewrite readInput_calls, edgesInto_calls, callsInto_cell by (congruence || lia).
  rewrite Hv, Hpv. set (k := vertexOf i j) in *.
  assert (i ≤ k).
  { subst k. destruct i as [|[|i]]; [lia..|]. rewrite vertexOf_S. cbn [tri]. lia. }
  assert (∀ (cs : list (nat * nat * Z)) u,
    Forall (λ c, c.1.1 ≠ u) cs →
    (λ c : nat * nat * Z, (u, Int.neg c.2)) <$> filter (λ c, c.1.1 = u) cs = [])
    as Hnone.
  { intros cs u Hcs. rewrite filter_nil_forall; [done|].
    by apply list.Forall_forall. }
  destruct (decide (0 < j)), (decide (j < i - 1)); cbn [app]; [| | |lia].
  - rewrite (bind_seq_pair _ 0 _ (k - i) (k - i + 1)); [|lia..|].
    + rewrite filter_cons_True, filter_cons_False, filter_nil by (cbn; lia).
      by rewrite filter_cons_False, filter_cons_True, filter_nil by (cbn; lia).
    + intros u _ Hu1 Hu2. apply Hnone. repeat constructor; cbn; lia.
  - rewrite (bind_seq_single _ 0 _ (k - i)); [|lia|].
    + by rewrite filter_cons_True, filter_nil by done.
    + intros u _ Hu. apply Hnone. repeat constructor; cbn; lia.
  - rewrite (bind_seq_single _ 0 _ (k - i + 1)); [|lia|].
    + by rewrite filter_cons_True, filter_nil by done.
    + intros u _ Hu. apply Hnone. repeat constructor; cbn; lia.
Qed.

Lemma C7_parent_edges_witness :
  edgesInto (readInput 3 [4; 1; 6; 2; 8; 3]%Z) 5 = [(2, (-8)%Z); (3, (-8)%Z)].
Proof.
  apply (C7_parent_edges 3 [4; 1; 6; 2; 8; 3]%Z 4%Z 3 1 8%Z); [done|done|lia|lia|done|done].
Defined.

(** A cell whose number is forbidden (the builder's test [isPrime] holds
    for it) is the destination of no edge; its sum is [INT_MAX] after every
    part of the relaxation, and when its turn comes the relaxation step
    leaves every sum as it is. *)
Lemma forbidden_cell_unreachable N input k v :
  1 ≤ k ≤ tri N → input !! (k - 1) = Some v → isPrime v = true →
  inDegree (readInput N input) k = 0 ∧
  (∀ u e, e ∈ edges (readInput N input) u → vertexNum e ≠ k) ∧
  ∃ order, topologicalSort (readInput N input) = Some order ∧
    ∀ popped rest, order = popped ++ rest →
      let sum := relax (readInput N input) popped
                   (initialSum (vertexAmount (readInput N input))) in
      sum !! k = Some Int.INT_MAX ∧
      relaxVertex (readInput N input) sum k = sum.
Proof.
  intros Hk Hv Hp. apply numAfter_cell in Hv; [|lia].
  assert (∀ u e, e ∈ edges (readInput N input) u → vertexNum e ≠ k) as Hno.
  { intros u e. apply no_edge_into_forbidden; [done|congruence]. }
  split_and!; [|done|].
  { unfold inDegree. by rewrite edgesInto_nil. }
  destruct (topologicalSort_spec _ (readInput_edges_wf N input)) as (order & Hsort & _).
  exists order. split; [done|]. intros popped rest _ sum.
  assert (sum !! k = Some Int.INT_MAX) as Hsum.
  { subst sum. rewrite relax_other by done.
    apply initialSum_other. rewrite readInput_vertexAmount. lia. }
  split; [done|]. by apply relaxVertex_unreached.
Qed.

(** The graph of the file with the lines [0] and [2147483647 6]: the
    builder's test fails on the prime [2147483647] ([isPrime_INT_MAX]) and
    the cell gets the edge from its parent and the edge to the sink. *)
Lemma readInput_prime_cell :
  readInput 2 [0; 2147483647; 6]%Z
  = mkDAG 5 [[mkEdge 1 0]; [mkEdge 2 (-2147483647); mkEdge 3 (-6)];
             [mkEdge 4 0]; [mkEdge 4 0]; []].
Proof.
  rewrite readInput_calls. unfold pyramidCalls.
  change (numAfter [0; 2147483647; 6]%Z 1) with 0%Z.
  change (isPrime 0) with false. cbv iota.
  change (seq 2 (2 - 1)) with [2]. cbn [mbind list_bind app].
  change (seq 0 2) with [0; 1]. cbn [mbind list_bind app].
  unfold cellCalls.
  change (numAfter [0; 2147483647; 6]%Z (vertexOf 2 0)) with 2147483647%Z.
  change (numAfter [0; 2147483647; 6]%Z (vertexOf 2 1)) with 6%Z.
  pose proof isPrime_INT_MAX as Hmax. change Int.INT_MAX with 2147483647%Z in Hmax.
  rewrite Hmax. change (isPrime 6) with false.
  vm_compute. reflexivity.
Qed.

(** C8 (the code departs from the claim). The claim: the vertex of a cell
    with a prime number is the destination of no edge, and is never
    reached. The code at the file with the lines [0] and [2147483647 6]:
    [isPrime] answers false on the prime [2147483647] (the defect of C10),
    so the cell gets the edge from its parent, its sum becomes
    [-2147483647], it is used to relax the sink, and the solver prints
    the sum [0 + 2147483647] of the path through it. Where [isPrime]
    answers true the claim holds ([forbidden_cell_unreachable]). *)
Theorem C8_prime_cell_reached :
  prime 2147483647 ∧ isPrime 2147483647 = false ∧
  edgesInto (readInput 2 [0; 2147483647; 6]%Z) (vertexOf 2 0)
  = [(1, (-2147483647)%Z)] ∧
  inDegree (readInput 2 [0; 2147483647; 6]%Z) (vertexOf 2 0) = 1 ∧
  (∃ order, topologicalSort (readInput 2 [0; 2147483647; 6]%Z) = Some order ∧
     relax (readInput 2 [0; 2147483647; 6]%Z) order (initialSum 5)
       !! vertexOf 2 0 = Some (-2147483647)%Z) ∧
  run [[0]; [2147483647; 6]]%Z = Some (MaximumSum 2147483647).
Proof.
  unfold run, readInputFile, inDegree. cbn [length concat app].
  rewrite readInput_prime_cell.
  split_and!; [apply prime_INT_MAX|apply isPrime_INT_MAX|
               vm_compute; reflexivity..| |vm_compute; reflexivity].
  exists [0; 1; 3; 2; 4]. split; vm_compute; reflexivity.
Qed.

(** C9. On every graph the builder makes (the vertex count fits an
    [int], as it must for the graph to be made), the depth-first sort of
    Step 1 ends; in the order in which the stack is popped, the source of
    every edge stands strictly before its destination, and every vertex of
    [0 .. V - 1] stands in it exactly once. *)
Theorem C9_topological_order N input :
  (Z.of_nat (tri N + 2) ≤ Int.INT_MAX)%Z →
  ∃ order, topologicalSort (readInput N input) = Some order ∧
    (∀ u e, e ∈ edges (readInput N input) u → before order u (vertexNum e)) ∧
    NoDup order ∧
    (∀ v, v ∈ order ↔ v < vertexAmount (readInput N input)).
Proof.
  intros _. pose proof (readInput_edges_wf N input) as Hg.
  destruct (topologicalSort_spec _ Hg) as (order & Hsort & Hsorted & Hnd & Hall).
  exists order. split_and!; [done| |done|done].
  intros u e He.
  apply (topologicallySorted_before (readInput N input)); [done| |done].
  apply Hall. apply Hg in He. lia.
Qed.

Lemma C9_topological_order_witness :
  (Z.of_nat (tri 3 + 2) ≤ Int.INT_MAX)%Z ∧
  ∃ order, topologicalSort (readInput 3 [4; 1; 6; 2; 8; 3]%Z) = Some order ∧
    (∀ u e, e ∈ edges (readInput 3 [4; 1; 6; 2; 8; 3]%Z) u →
            before order u (vertexNum e)) ∧
    NoDup order ∧
    (∀ v, v ∈ order ↔ v < vertexAmount (readInput 3 [4; 1; 6; 2; 8; 3]%Z)).
Proof.
  split; [by vm_compute|].
  apply (C9_topological_order 3 [4; 1; 6; 2; 8; 3]%Z). by vm_compute.
Defined.

(** C10 (the code departs from the claim). The claim: [isPrime(n)] is true
    exactly when [n] is prime. The code at [n = INT_MAX = 2^31 - 1], a
    prime: [i * i] no longer fits an [int] from [i = 46343] on, the test
    [i * i <= num] cannot fail any more, and the loop goes on until
    [i + 2 = num] and returns false. [isPrime_spec] is the claim for the
    numbers below [46337 * 46337], [isPrime_sound] one half of it for every
    [int]. *)
Theorem C10_isPrime_INT_MAX :
  Int.in_range 2147483647 ∧ prime 2147483647 ∧ isPrime 2147483647 = false.
Proof.
  split_and!; [done|apply prime_INT_MAX|apply isPrime_INT_MAX].
Qed.

End claims.

(** * The solver and the builder as a whole *)

(** ** Step 2 computes shortest paths *)

Section shortest_paths.
Local Open Scope nat_scope.

Variable g : DAG.
Hypothesis Hg : increasing g.

(** Along a path the vertex ids grow. *)
Lemma path_le u v w : path g u v w → u ≤ v.
Proof.
  induction 1 as [|v e w _ IH He]; [done|]. apply Hg in He. lia.
Qed.

Lemma path_lt u v w : path g u v w → w ≠ 0%Z ∨ u ≠ v → u < v.
Proof.
  destruct 1 as [|v e w Hp He]; [by intros [?|?]|].
  intros _. apply path_le in Hp. apply Hg in He. lia.
Qed.

Lemma path_in_graph v w : 0 < vertexAmount g → path g 0 v w → v < vertexAmount g.
Proof.
  intros HV. destruct 1 as [|v e w _ He]; [done|]. apply Hg in He. lia.
Qed.

(** No path leads back to the vertex it starts from. *)
Lemma path_acyclic u w : path g u u w → w = 0%Z.
Proof.
  intros Hp. destruct (decide (w = 0%Z)) as [|Hne]; [done|].
  apply path_lt in Hp; [lia|by left].
Qed.

(** Edges of bounded weight make paths of bounded weight. *)
Lemma path_weight_bound (B : Z) u v w :
  Forall (Forall (λ e, - B ≤ edgeWeight e ≤ B)%Z) (edgeList g) →
  path g u v w → (- (Z.of_nat (v - u) * B) ≤ w ≤ Z.of_nat (v - u) * B)%Z.
Proof.
  intros HB. induction 1 as [|v e w Hp IH He].
  { rewrite Nat.sub_diag. lia. }
  pose proof (path_le _ _ _ Hp). pose proof (proj2 Hg _ _ He) as Hlt.
  assert (- B ≤ edgeWeight e ≤ B)%Z as Hw.
  { unfold edges in He. destruct (edgeList g !! v) as [es|] eqn:Hes;
      [|by apply elem_of_nil in He].
    pose proof (list.Forall_lookup_1 _ _ _ _ HB Hes) as Hes'.
    by apply (proj1 (list.Forall_forall _ _) Hes'). }
  nia.
Qed.

Lemma pathsInRange_bounded (B : Z) :
  Forall (Forall (λ e, - B ≤ edgeWeight e ≤ B)%Z) (edgeList g) →
  (Z.of_nat (vertexAmount g) * B < Int.INT_MAX)%Z →
  pathsInRange g.
Proof.
  intros HB HV v w Hp. pose proof (path_weight_bound B _ _ _ HB Hp) as Hw.
  rewrite Nat.sub_0_r in Hw.
  destruct (decide (v = 0)) as [->|Hv].
  { unfold Int.INT_MIN, Int.INT_MAX. lia. }
  assert (v < vertexAmount g).
  { destruct Hp as [|v e w _ He]; [done|]. apply Hg in He. lia. }
  assert (0 ≤ B)%Z by nia.
  unfold Int.INT_MIN, Int.INT_MAX in *. nia.
Qed.

(** *** One edge, one vertex, a list of vertices *)

(** The sums never grow. *)
Lemma relaxEdge_le source sum e k x :
  sum !! k = Some x →
  ∃ x', relaxEdge source sum e !! k = Some x' ∧ (x' ≤ x)%Z.
Proof.
  intros Hk. unfold relaxEdge.
  destruct (sum !! vertexNum e) as [sv|] eqn:Hsv; [|by exists x].
  destruct (sum !! source) as [ss|]; [|by exists x].
  destruct (Z.gtb_spec sv (Int.add ss (edgeWeight e))) as [Hgt|Hle]; [|by exists x].
  destruct (decide (vertexNum e = k)) as [<-|Hne].
  - rewrite list_lookup_insert_eq by (by apply lookup_lt_Some in Hsv).
    eexists. split; [done|]. assert (sv = x) by congruence. lia.
  - rewrite list_lookup_insert_ne by done. by exists x.
Qed.

Lemma relaxEdges_le source es : ∀ sum k x,
  sum !! k = Some x →
  ∃ x', foldl (relaxEdge source) sum es !! k = Some x' ∧ (x' ≤ x)%Z.
Proof.
  induction es as [|e es IH]; intros sum k x Hk; [by exists x|].
  destruct (relaxEdge_le source sum e k x Hk) as (x1 & Hx1 & Hle1).
  destruct (IH _ _ _ Hx1) as (x' & Hx' & Hle). exists x'. split; [done|lia].
Qed.

Lemma relaxVertex_le sum source k x :
  sum !! k = Some x →
  ∃ x', relaxVertex g sum source !! k = Some x' ∧ (x' ≤ x)%Z.
Proof.
  intros Hk. unfold relaxVertex. destruct (sum !! source); [|by exists x].
  case_match; [by exists x|]. by apply relaxEdges_le.
Qed.

Lemma relax_le order : ∀ sum k x,
  sum !! k = Some x →
  ∃ x', relax g order sum !! k = Some x' ∧ (x' ≤ x)%Z.
Proof.
  unfold relax. induction order as [|u order IH]; intros sum k x Hk; [by exists x|].
  destruct (relaxVertex_le sum u k x Hk) as (x1 & Hx1 & Hle1).
  destruct (IH _ _ _ Hx1) as (x' & Hx' & Hle). exists x'. split; [done|lia].
Qed.

Lemma length_relaxVertex sum source : length (relaxVertex g sum source) = length sum.
Proof.
  unfold relaxVertex. destruct (sum !! source); [|done]. case_match; [done|].
  generalize (edges g source). intros es. revert sum.
  induction es as [|e es IH]; intros sum; [done|].
  cbn [foldl]. by rewrite IH, length_relaxEdge.
Qed.

Lemma length_relax order sum : length (relax g order sum) = length sum.
Proof.
  unfold relax. revert sum. induction order as [|u order IH]; intros sum; [done|].
  cbn [foldl]. by rewrite IH, length_relaxVertex.
Qed.

Hypothesis Hrange : pathsInRange g.

Lemma relaxEdge_sound source sum e ss :
  sound g sum → e ∈ edges g source →
  sum !! source = Some ss → ss ≠ Int.INT_MAX →
  sound g (relaxEdge source sum e).
Proof.
  intros Hsound He Hss Hne v x. unfold relaxEdge. rewrite Hss.
  destruct (sum !! vertexNum e) as [sv|] eqn:Hsv; [|apply Hsound].
  case_match; [|apply Hsound].
  destruct (decide (vertexNum e = v)) as [<-|Hv].
  - rewrite list_lookup_insert_eq by (by apply lookup_lt_Some in Hsv).
    intros [= <-]. right.
    destruct (Hsound _ _ Hss) as [?|Hp]; [done|].
    pose proof (path_step _ _ _ _ _ Hp He) as Hp'.
    rewrite IntFacts.add_exact; [done|].
    apply Hrange in Hp'. unfold Int.in_range. lia.
  - rewrite list_lookup_insert_ne by done. apply Hsound.
Qed.

(** After the edge [e] out of [source] the sum of its destination is at
    most the sum of [source] plus the weight. *)
Lemma relaxEdge_relaxed source sum e ss :
  length sum = vertexAmount g → e ∈ edges g source →
  sum !! source = Some ss → path g 0 source ss →
  ∃ x', relaxEdge source sum e !! vertexNum e = Some x' ∧
        (x' ≤ ss + edgeWeight e)%Z.
Proof.
  intros Hlen He Hss Hp. unfold relaxEdge. rewrite Hss.
  destruct (lookup_lt_is_Some_2 sum (vertexNum e)) as [sv Hsv].
  { rewrite Hlen. apply Hg in He. lia. }
  rewrite Hsv.
  assert (Int.add ss (edgeWeight e) = ss + edgeWeight e)%Z as ->.
  { apply IntFacts.add_exact.
    pose proof (Hrange _ _ (path_step _ _ _ _ _ Hp He)). unfold Int.in_range. lia. }
  destruct (Z.gtb_spec sv (ss + edgeWeight e)) as [Hgt|Hle].
  - rewrite list_lookup_insert_eq by (by apply lookup_lt_Some in Hsv).
    by eexists.
  - by exists sv.
Qed.

Lemma relaxEdges_spec source ss es : ∀ sum,
  (∀ e, e ∈ es → e ∈ edges g source) →
  sound g sum → length sum = vertexAmount g →
  sum !! source = Some ss → ss ≠ Int.INT_MAX →
  sound g (foldl (relaxEdge source) sum es) ∧
  ∀ e, e ∈ es →
    ∃ x', foldl (relaxEdge source) sum es !! vertexNum e = Some x' ∧
          (x' ≤ ss + edgeWeight e)%Z.
Proof.
  induction es as [|e es IH]; intros sum Hes Hsound Hlen Hss Hne.
  { split; [done|]. by intros e ?%elem_of_nil. }
  assert (e ∈ edges g source) as He by (apply Hes; left).
  assert (relaxEdge source sum e !! source = Some ss) as Hss'.
  { rewrite relaxEdge_other; [done|]. apply Hg in He. lia. }
  destruct (IH (relaxEdge source sum e)) as [Hsound' Hrelaxed];
    [intros e' He'; apply Hes; by right
    |by eapply relaxEdge_sound|by rewrite length_relaxEdge|done|done|].
  cbn [foldl]. split; [done|].
  intros e' [->|He']%elem_of_cons; [|by apply Hrelaxed].
  destruct (Hsound _ _ Hss) as [?|Hp]; [done|].
  destruct (relaxEdge_relaxed source sum e ss Hlen He Hss Hp) as (x1 & Hx1 & Hle1).
  destruct (relaxEdges_le source es _ _ _ Hx1) as (x' & Hx' & Hle).
  exists x'. split; [done|lia].
Qed.

Lemma relaxVertex_sound sum source :
  sound g sum → length sum = vertexAmount g → sound g (relaxVertex g sum source).
Proof.
  intros Hsound Hlen. unfold relaxVertex.
  destruct (sum !! source) as [ss|] eqn:Hss; [|done].
  destruct (Z.eqb_spec ss Int.INT_MAX) as [|Hne]; [done|].
  by apply (relaxEdges_spec source ss).
Qed.

Lemma relax_sound order : ∀ sum,
  sound g sum → length sum = vertexAmount g → sound g (relax g order sum).
Proof.
  unfold relax. induction order as [|u order IH]; intros sum Hsound Hlen; [done|].
  cbn [foldl]. apply IH; [by apply relaxVertex_sound|by rewrite length_relaxVertex].
Qed.

Lemma initialSum_sound : sound g (initialSum (vertexAmount g)).
Proof.
  intros v x Hv. destruct (decide (v = 0)) as [->|Hne].
  - right. assert (0 < vertexAmount g).
    { apply lookup_lt_Some in Hv. unfold initialSum in Hv.
      rewrite length_insert, length_replicate in Hv. lia. }
    rewrite initialSum_source in Hv by done. injection Hv as <-. constructor.
  - left. unfold initialSum in Hv. rewrite list_lookup_insert_ne in Hv by done.
    by apply lookup_replicate in Hv as [-> _].
Qed.

(** The vertices popped after [k] do not change the sum of [k] when none of
    their edges leads to [k]. *)
Lemma relax_stable order k : ∀ sum,
  (∀ u e, u ∈ order → e ∈ edges g u → vertexNum e ≠ k) →
  relax g order sum !! k = sum !! k.
Proof.
  unfold relax. induction order as [|u order IH]; intros sum Hk; [done|].
  cbn [foldl]. rewrite IH by (intros u' e Hu'; apply Hk; by right).
  apply relaxVertex_other. intros e. apply Hk. left.
Qed.

Lemma sorted_successor_in order u e :
  topologicallySorted g order → u ∈ order → e ∈ edges g u → vertexNum e ∈ order.
Proof.
  intros Hsorted (l1 & l2 & ->)%list_elem_of_split He.
  apply topologicallySorted_app in Hsorted as [Hu _].
  apply elem_of_app. right. right. by apply Hu.
Qed.

Section in_order.
Variable order : list nat.
Hypothesis Hsorted : topologicallySorted g order.
Hypothesis Hnodup : NoDup order.
Hypothesis Hall : ∀ v, v ∈ order ↔ v < vertexAmount g.
Hypothesis HV : 0 < vertexAmount g.

Lemma final_length :
  length (relax g order (initialSum (vertexAmount g))) = vertexAmount g.
Proof.
  unfold initialSum. by rewrite length_relax, length_insert, length_replicate.
Qed.

(** The sum of a vertex is at most the weight of any path to it: when
    the vertex at the start of the last edge was popped, its sum was
    already final, and the edge was relaxed with it. *)
Lemma final_le v w :
  path g 0 v w →
  ∃ x, relax g order (initialSum (vertexAmount g)) !! v = Some x ∧ (x ≤ w)%Z.
Proof.
  induction 1 as [|v e w Hp IH He].
  { exists 0%Z. split; [by apply relax_source|done]. }
  destruct IH as (x & Hx & Hle).
  assert (v ∈ order) as Hv by (by eapply Hall, path_in_graph).
  apply list_elem_of_split in Hv as (P & R & Horder).
  rewrite Horder in *. clear Horder.
  set (s1 := relax g P (initialSum (vertexAmount g))).
  assert (relax g (P ++ v :: R) (initialSum (vertexAmount g))
          = relax g R (relaxVertex g s1 v)) as Hsplit.
  { unfold relax, s1, relax. by rewrite foldl_app. }
  rewrite Hsplit in *.
  assert (length s1 = vertexAmount g) as Hlen1.
  { unfold s1, initialSum. by rewrite length_relax, length_insert, length_replicate. }
  assert (sound g s1) as Hsound1.
  { apply relax_sound; [apply initialSum_sound|].
    unfold initialSum. by rewrite length_insert, length_replicate. }
  (* the sum of [v] was final when [v] was popped *)
  assert (s1 !! v = Some x) as Hs1.
  { rewrite <- Hx, relax_stable, relaxVertex_other; [done| |].
    - intros e' He'. apply Hg in He'. lia.
    - intros u e' Hu He' Heq.
      apply list.NoDup_app in Hnodup as (_ & _ & [Hv _]%list.NoDup_cons).
      apply Hv. rewrite <- Heq.
      apply topologicallySorted_app in Hsorted as [_ HR].
      by apply (sorted_successor_in R u). }
  assert (x ≠ Int.INT_MAX) as Hne.
  { pose proof (Hrange _ _ Hp). lia. }
  destruct (relaxEdges_spec v x (edges g v) s1) as [_ Hrelaxed]; [done..|].
  destruct (Hrelaxed e He) as (x1 & Hx1 & Hle1).
  assert (relaxVertex g s1 v !! vertexNum e = Some x1) as Hx1'.
  { unfold relaxVertex. rewrite Hs1. by rewrite (proj2 (Z.eqb_neq _ _)). }
  destruct (relax_le R _ _ _ Hx1') as (x' & Hx' & Hle').
  exists x'. split; [done|lia].
Qed.

(** After Step 2 the sum of a vertex is [INT_MAX] when no path leads
    to it from the source, and the least weight of such a path
    otherwise. *)
Lemma relax_shortest v :
  v < vertexAmount g →
  (relax g order (initialSum (vertexAmount g)) !! v = Some Int.INT_MAX ∧
   ∀ w, ¬ path g 0 v w) ∨
  (∃ x, relax g order (initialSum (vertexAmount g)) !! v = Some x ∧
        x ≠ Int.INT_MAX ∧ path g 0 v x ∧ ∀ w, path g 0 v w → (x ≤ w)%Z).
Proof.
  intros Hv.
  destruct (lookup_lt_is_Some_2 (relax g order (initialSum (vertexAmount g))) v)
    as [x Hx]; [by rewrite final_length|].
  assert (sound g (relax g order (initialSum (vertexAmount g)))) as Hsound.
  { apply relax_sound; [apply initialSum_sound|].
    unfold initialSum. by rewrite length_insert, length_replicate. }
  destruct (Hsound _ _ Hx) as [->|Hp].
  - left. split; [done|]. intros w Hw.
    destruct (final_le _ _ Hw) as (x' & Hx' & Hle).
    pose proof (Hrange _ _ Hw). assert (x' = Int.INT_MAX) by congruence. lia.
  - right. exists x. split_and!; [done| |done|].
    + pose proof (Hrange _ _ Hp). lia.
    + intros w Hw. destruct (final_le _ _ Hw) as (x' & Hx' & Hle).
      assert (x' = x) by congruence. lia.
Qed.

End in_order.

(** What Step 3 prints: the opposite of the sum of the highest vertex
    whose sum is not [INT_MAX]. *)
Lemma printSum_highest sum n :
  n ≤ length sum →
  (printSum sum n = DoesNotExist ∧ ∀ k, k < n → sum !! k = Some Int.INT_MAX) ∨
  (∃ i x, i < n ∧ sum !! i = Some x ∧ x ≠ Int.INT_MAX ∧
          (∀ k, i < k < n → sum !! k = Some Int.INT_MAX) ∧
          printSum sum n = MaximumSum (Int.neg x)).
Proof.
  induction n as [|n IH]; intros Hn.
  { left. split; [done|]. lia. }
  destruct (lookup_lt_is_Some_2 sum n) as [x Hx]; [lia|].
  cbn [printSum]. rewrite Hx.
  destruct (Z.eqb_spec x Int.INT_MAX) as [->|Hne].
  - destruct IH as [[Hnone Hall]|(i & y & Hi & Hy & Hne & Habove & Hprint)]; [lia| |].
    + left. split; [done|]. intros k Hk.
      destruct (decide (k = n)) as [->|]; [done|]. apply Hall. lia.
    + right. exists i, y. split_and!; [lia|done|done| |done].
      intros k Hk. destruct (decide (k = n)) as [->|]; [done|]. apply Habove. lia.
  - right. exists n, x. split_and!; [lia|done|done| |done]. lia.
Qed.

(** The solver prints the greatest sum of a path (the opposite of the
    least weight) from the source to the highest vertex that a path
    reaches: to the sink when the sink can be reached. *)
Theorem maximumSum_highest_reachable :
  0 < vertexAmount g →
  ∃ v x, path g 0 v x ∧ (∀ w, path g 0 v w → (x ≤ w)%Z) ∧
         (∀ v' w, v < v' → ¬ path g 0 v' w) ∧
         maximumSum g = Some (MaximumSum (- x)).
Proof.
  intros HV.
  destruct (topologicalSort_spec g Hg) as (order & Hsort & Hsorted & Hnd & Hall).
  unfold maximumSum. rewrite Hsort.
  destruct (printSum_highest (relax g order (initialSum (vertexAmount g)))
              (vertexAmount g))
    as [[_ Hnone]|(i & x & Hi & Hx & Hne & Habove & ->)].
  { by rewrite final_length. }
  { specialize (Hnone 0 HV). rewrite relax_source in Hnone by done. done. }
  destruct (relax_shortest order Hsorted Hnd Hall HV i Hi)
    as [[Hmax _]|(x' & Hx' & _ & Hp & Hmin)]; [congruence|].
  assert (x' = x) as -> by congruence.
  exists i, x. split_and!; [done|done| |].
  - intros v' w Hlt Hw.
    assert (v' < vertexAmount g) as Hv' by (by eapply path_in_graph).
    destruct (relax_shortest order Hsorted Hnd Hall HV v' Hv')
      as [[_ Hno]|(y & Hy & Hyne & _)]; [by apply (Hno w)|].
    rewrite Habove in Hy by lia. congruence.
  - rewrite IntFacts.neg_exact; [done|].
    pose proof (Hrange _ _ Hp). unfold Int.INT_MIN, Int.INT_MAX in *. lia.
Qed.


End shortest_paths.

(** ** The edges of the graph, cell by cell *)

Section children.
Local Open Scope nat_scope.

Variables (N : nat) (input : list Z).
Hypothesis HN : 1 ≤ N.
Hypothesis Hlen : tri N ≤ length input.

Lemma cell_present k :
  1 ≤ k ≤ tri N → ∃ v, input !! (k - 1) = Some v ∧ numAfter input k = v.
Proof using Hlen.
  clear HN.
  intros Hk. destruct (lookup_lt_is_Some_2 input (k - 1)) as [v Hv]; [lia|].
  exists v. split; [done|]. apply numAfter_cell; [lia|done].
Qed.

(** *** From the calls to the edges and back *)

Lemma elem_of_pyramidCalls_cell i j c :
  isPrime (numAfter input 1) = false → 2 ≤ i ≤ N → j < i →
  c ∈ cellCalls N i j (vertexOf i j) (numAfter input (vertexOf i j)) →
  c ∈ pyramidCalls N input.
Proof using Type.
  clear HN Hlen.
  intros Hapex Hi Hj Hc. unfold pyramidCalls. rewrite Hapex. right.
  apply list_elem_of_bind. exists i. split; [|apply elem_of_seq; lia].
  apply list_elem_of_bind. exists j. split; [done|apply elem_of_seq; lia].
Qed.

Lemma readInput_edge_of_call u d val :
  (u, d, val) ∈ pyramidCalls N input →
  mkEdge d (Int.neg val) ∈ edges (readInput N input) u.
Proof using Type.
  clear HN Hlen.
  intros Hc. pose proof (pyramidCalls_destination _ _ _ Hc) as [Hlt Hd].
  cbn in Hlt, Hd.
  assert (tri (N `max` 1) ≤ tri N + 1).
  { destruct N as [|n]; [done|]. rewrite Nat.max_l; lia. }
  rewrite readInput_edges, decide_True by lia.
  apply elem_of_callsFrom. by exists val.
Qed.

(** The edge from a parent to a child whose number is not forbidden. *)
Lemma edge_to_child i j j' v :
  isPrime (numAfter input 1) = false →
  1 ≤ i → S i ≤ N → j < i → j' = j ∨ j' = S j →
  input !! (vertexOf (S i) j' - 1) = Some v → isPrime v = false →
  mkEdge (vertexOf (S i) j') (Int.neg v)
    ∈ edges (readInput N input) (vertexOf i j).
Proof using Type.
  clear HN Hlen.
  intros Hapex Hi HiN Hj Hj' Hv Hpv.
  pose proof (vertexOf_range (S i) j') as Hr.
  apply numAfter_cell in Hv; [|lia].
  apply readInput_edge_of_call.
  apply (elem_of_pyramidCalls_cell (S i) j'); [done|lia|lia|].
  rewrite Hv. unfold cellCalls. rewrite Hpv. apply elem_of_app. left.
  destruct Hj' as [-> | ->].
  - replace (vertexOf i j) with (vertexOf (S i) j - S i + 1)
      by (rewrite <- vertexOf_right_parent by lia; f_equal; lia).
    destruct (Nat.eqb_spec j 0); [left|].
    destruct (Nat.eqb_spec (j + 1) (S i)); [lia|]. right. left.
  - replace (vertexOf i j) with (vertexOf (S i) (S j) - S i)
      by (rewrite <- vertexOf_left_parent by lia; f_equal; lia).
    cbn [Nat.eqb]. destruct (Nat.eqb_spec (S j + 1) (S i)); left.
Qed.

(** The edge from a cell of the last row to the sink. *)
Lemma edge_to_sink j v :
  isPrime (numAfter input 1) = false → 2 ≤ N → j < N →
  input !! (vertexOf N j - 1) = Some v → isPrime v = false →
  mkEdge (tri N + 1) 0 ∈ edges (readInput N input) (vertexOf N j).
Proof using Type.
  clear HN Hlen.
  intros Hapex HN2 Hj Hv Hpv. pose proof (vertexOf_range N j) as Hr.
  apply numAfter_cell in Hv; [|lia].
  change 0%Z with (Int.neg 0). apply readInput_edge_of_call.
  apply (elem_of_pyramidCalls_cell N j); [done|lia|lia|].
  rewrite Hv. unfold cellCalls. rewrite Hpv, Nat.eqb_refl, sink_vertex by lia.
  apply elem_of_app. right. left.
Qed.

(** The source of a call for a cell is one of its two parents. *)
Lemma call_parent i' j' c :
  2 ≤ i' → j' < i' →
  c ∈ cellCalls N i' j' (vertexOf i' j') (numAfter input (vertexOf i' j')) →
  isPrime (numAfter input (vertexOf i' j')) = false ∧
  ((c.1.2 = vertexOf i' j' ∧ c.2 = numAfter input (vertexOf i' j') ∧
    (c.1.1 = vertexOf (i' - 1) (j' - 1) ∧ 0 < j' ∨
     c.1.1 = vertexOf (i' - 1) j' ∧ j' < i' - 1))
   ∨ (i' = N ∧ c = (vertexOf N j', tri N + 1, 0%Z))).
Proof using Type.
  clear HN Hlen.
  intros Hi' Hj' Hc.
  apply elem_of_cellCalls in Hc as [Hpv [(Hd & Hval & Hsrc)|[-> Hc]]]; [| |lia];
    (split; [done|]).
  - left. split_and!; [done..|].
    destruct Hsrc as [[-> ?]|[-> ?]].
    + left. split; [|done]. by rewrite vertexOf_left_parent by lia.
    + right. split; [|lia]. by rewrite vertexOf_right_parent by lia.
  - right. split; [done|]. by rewrite Hc, sink_vertex by lia.
Qed.

(** The edges out of a cell above the last row lead to the cell below it
    and to the one on the right of that, each if its number is not
    forbidden, with the opposite of that number as weight; whether the
    cell itself holds a forbidden number plays no part. *)
Theorem edges_of_cell a i j e :
  input !! 0 = Some a → isPrime a = false → 1 ≤ i → i < N → j < i →
  e ∈ edges (readInput N input) (vertexOf i j) ↔
  ∃ j' v, (j' = j ∨ j' = S j) ∧
          input !! (vertexOf (S i) j' - 1) = Some v ∧ isPrime v = false ∧
          e = mkEdge (vertexOf (S i) j') (Int.neg v).
Proof using Hlen.
  clear HN.
  intros Ha Hapex Hi HiN Hj.
  rewrite <- (numAfter_lookup _ _ _ Ha) in Hapex. split.
  - intros (val & Hc & Hw)%elem_of_readInput_edges.
    pose proof (vertexOf_range i j) as Hr.
    apply elem_of_pyramidCalls in Hc as [_ [Hc|(i' & j' & Hi' & Hj' & Hc)]].
    { injection Hc as Hu _ _. lia. }
    pose proof (vertexOf_range i' j') as Hr'. pose proof (tri_mono i' N) as Hm'.
    destruct (cell_present (vertexOf i' j')) as (v' & Hv' & Hnv'); [lia|].
    apply call_parent in Hc as [Hpv' [(Hd & Hval & Hsrc)|[-> Hc]]]; [| |lia..].
    + cbn in Hd, Hval, Hsrc. rewrite Hnv' in Hval, Hpv'.
      assert (∃ i0, i' = S i0) as [i0 ->] by (exists (i' - 1); lia).
      replace (S i0 - 1) with i0 in * by lia.
      exists j', v'.
      destruct Hsrc as [[Heq ?]|[Heq ?]];
        apply vertexOf_inj in Heq as [-> ->]; try lia;
        (split_and!; [lia|done|done|]);
        destruct e as [d w]; cbn in *; by subst.
    + injection Hc as Hu _ _. apply vertexOf_inj in Hu as [-> _]; lia.
  - intros (j' & v & Hj' & Hv & Hpv & ->). by apply edge_to_child.
Qed.

(** The source has one edge, to the top of the pyramid. *)
Theorem edges_of_source a :
  input !! 0 = Some a → isPrime a = false →
  edges (readInput N input) 0 = [mkEdge 1 (Int.neg a)].
Proof using Type.
  clear HN Hlen.
  intros Ha Hpa. apply (numAfter_lookup input 0) in Ha.
  rewrite readInput_edges, decide_True by lia.
  unfold callsFrom, pyramidCalls. rewrite Ha, Hpa.
  rewrite filter_cons_True by done. rewrite filter_nil_forall; [done|].
  intros c Hc Hsrc.
  assert (c ∈ pyramidCalls N input) as Hin.
  { unfold pyramidCalls. rewrite Ha, Hpa. by right. }
  apply list_elem_of_bind in Hc as (i' & Hc & Hi'%elem_of_seq).
  apply list_elem_of_bind in Hc as (j' & Hc & Hj'%elem_of_seq).
  pose proof (vertexOf_range (i' - 1) (j' - 1)).
  pose proof (vertexOf_range (i' - 1) j'). pose proof (vertexOf_range N j').
  apply call_parent in Hc as [_ [(_ & _ & [[? ?]|[? ?]])|[-> ->]]];
    cbn in *; lia.
Qed.

Lemma edge_weight_cells u e :
  e ∈ edges (readInput N input) u →
  (vertexNum e = tri N + 1 ∧ edgeWeight e = 0%Z ∧ 2 ≤ N) ∨
  (∃ v, 1 ≤ vertexNum e ≤ tri N ∧ input !! (vertexNum e - 1) = Some v ∧
        isPrime v = false ∧ edgeWeight e = Int.neg v).
Proof using HN Hlen.
  intros (val & Hc & Hw)%elem_of_readInput_edges.
  apply pyramidCalls_destination in Hc as [_ Hd]. cbn in Hd.
  rewrite Nat.max_l in Hd by lia.
  destruct Hd as [(Hd & Hval & HN2 & _)|(Hd & Hp & -> & _)]; [left|right].
  { rewrite Hw, Hval, IntFacts.neg_0. by split_and!. }
  destruct (cell_present (vertexNum e)) as (v & Hv & Hnv); [done|].
  exists v. rewrite Hnv in *. split_and!; (done || lia).
Qed.

End children.

(** In a pyramid of [N >= 1] rows whose [N (N + 1) / 2] numbers are all in
    the stream, what an edge weighs: 0 into the sink, the opposite of the
    number of the cell it enters otherwise, and that number is not
    forbidden. *)
Theorem edge_weight (N : nat) (input : list Z) :
  (1 ≤ N)%nat → (tri N ≤ length input)%nat →
  ∀ u e, e ∈ edges (readInput N input) u →
    (vertexNum e = (tri N + 1)%nat ∧ edgeWeight e = 0%Z ∧ (2 ≤ N)%nat) ∨
    (∃ v, (1 ≤ vertexNum e ≤ tri N)%nat ∧
          input !! (vertexNum e - 1)%nat = Some v ∧
          isPrime v = false ∧ edgeWeight e = Int.neg v).
Proof. intros HN Hlen u e. by apply edge_weight_cells. Qed.

(** ** The paths of the graph are the ways down the pyramid *)

Section descents.
Local Open Scope nat_scope.

Variables (N : nat) (input : list Z) (B : Z).
Hypothesis HN : 1 ≤ N.
Hypothesis Hlen : tri N ≤ length input.
Hypothesis HB : Forall (λ v, - B ≤ v ≤ B)%Z input.
Hypothesis HNB : (Z.of_nat N * B < Int.INT_MAX)%Z.

Lemma value_bound k v : input !! k = Some v → (- B ≤ v ≤ B)%Z.
Proof. intros Hv. by apply (list.Forall_lookup_1 _ _ _ _ HB Hv). Qed.

Lemma value_neg k v : input !! k = Some v → Int.neg v = (- v)%Z.
Proof.
  intros Hv%value_bound. apply IntFacts.neg_exact.
  unfold Int.INT_MIN, Int.INT_MAX in *. nia.
Qed.

Lemma descent_shape i j t : descent input i j t → 1 ≤ i ∧ j < i.
Proof. induction 1 as [|i j t j' v _ IH [-> | ->]]; lia. Qed.

(** The cell a way down ends at holds a number that is not forbidden. *)
Lemma descent_last i j t :
  descent input i j t →
  ∃ v, input !! (vertexOf i j - 1) = Some v ∧ isPrime v = false.
Proof. destruct 1 as [a Ha Hpa|i j t j' v _ _ Hv Hpv]; by eexists. Qed.

Lemma descent_bound i j t :
  descent input i j t → (- (Z.of_nat i * B) ≤ t ≤ Z.of_nat i * B)%Z.
Proof.
  induction 1 as [a Ha _|i j t j' v _ IH _ Hv _].
  - apply value_bound in Ha. lia.
  - apply value_bound in Hv. lia.
Qed.

(** A way down the pyramid is a path of the graph, of the opposite
    weight. *)
Lemma descent_path i j t :
  descent input i j t → i ≤ N →
  path (readInput N input) 0 (vertexOf i j) (- t).
Proof.
  induction 1 as [a Ha Hpa|i j t j' v Hd IH Hj' Hv Hpv]; intros Hi.
  - replace (- a)%Z with (0 + edgeWeight (mkEdge 1 (Int.neg a)))%Z
      by (cbn; rewrite (value_neg _ _ Ha); lia).
    apply (path_step _ _ 0 (mkEdge 1 (Int.neg a))); [constructor|].
    apply readInput_edge_of_call. unfold pyramidCalls.
    rewrite (numAfter_lookup _ _ _ Ha), Hpa. left.
  - pose proof (descent_shape _ _ _ Hd) as [Hi1 Hj].
    assert (isPrime (numAfter input 1) = false) as Hapex.
    { clear -Hd. induction Hd as [a Ha Hpa|]; [|done].
      by rewrite (numAfter_lookup _ _ _ Ha). }
    replace (- (t + v))%Z
      with (- t + edgeWeight (mkEdge (vertexOf (S i) j') (Int.neg v)))%Z
      by (cbn; rewrite (value_neg _ _ Hv); lia).
    apply (path_step _ _ (vertexOf i j) (mkEdge (vertexOf (S i) j') (Int.neg v)));
      [apply IH; lia|].
    by apply edge_to_child.
Qed.

Lemma descent_apex i j t : descent input i j t → isPrime (numAfter input 1) = false.
Proof.
  induction 1 as [a Ha Hpa|]; [|done]. by rewrite (numAfter_lookup _ _ _ Ha).
Qed.

Lemma descent_sink j t :
  2 ≤ N → descent input N j t →
  path (readInput N input) 0 (tri N + 1) (- t).
Proof.
  intros HN2 Hd. pose proof (descent_shape _ _ _ Hd) as [_ Hj].
  pose proof (descent_apex _ _ _ Hd) as Hapex.
  replace (- t)%Z with (- t + edgeWeight (mkEdge (tri N + 1) 0))%Z by (cbn; lia).
  apply (path_step _ _ (vertexOf N j) (mkEdge (tri N + 1) 0));
    [by apply descent_path|].
  destruct (descent_last _ _ _ Hd) as (v & Hv & Hpv).
  by apply (edge_to_sink N input j v).
Qed.

(** A path from the source ends at the source, at a cell that a way down
    reaches, or, after the last row, at the sink. *)
Lemma path_descent v w :
  path (readInput N input) 0 v w →
  (v = 0 ∧ w = 0%Z) ∨
  (∃ i j t, v = vertexOf i j ∧ i ≤ N ∧ descent input i j t ∧ w = (- t)%Z) ∨
  (v = tri N + 1 ∧ 2 ≤ N ∧ ∃ j t, descent input N j t ∧ w = (- t)%Z).
Proof.
  induction 1 as [|u e w Hp IH He]; [by left|]. right.
  apply elem_of_readInput_edges in He as (val & Hc & Hw). rewrite Hw.
  pose proof (pyramidCalls_destination _ _ _ Hc) as [Hlt Hdest]. cbn in Hlt, Hdest.
  rewrite Nat.max_l in Hdest by lia.
  apply elem_of_pyramidCalls in Hc as [Hapex [Hc|(i' & j' & Hi' & Hj' & Hc)]].
  { (* the edge from the source *)
    injection Hc as Hu Hd Hval. destruct (cell_present N input Hlen 1) as (a & Ha & Hna).
    { pose proof (tri_mono 1 N). cbn [tri] in *. lia. }
    destruct IH as [[_ ->]|[(i & j & t & -> & _ & Hdesc & _)|[-> _]]];
      [|pose proof (vertexOf_range i j); apply descent_shape in Hdesc; lia|lia].
    left. exists 1, 0, a. rewrite Hd. split_and!; [done|lia| |].
    - constructor; [done|congruence].
    - rewrite Hval, Hna, (value_neg _ _ Ha). lia. }
  pose proof (vertexOf_range i' j') as Hr'. pose proof (tri_mono i' N) as Hm'.
  destruct (cell_present N input Hlen (vertexOf i' j')) as (v' & Hv' & Hnv'); [lia|].
  rewrite Hnv' in Hc.
  apply elem_of_cellCalls in Hc as [Hpv' [(Hd & Hval & Hsrc)|[-> Hc]]]; [| |lia].
  - (* an edge from a parent *)
    cbn in Hd, Hval, Hsrc. left.
    assert (u = vertexOf (i' - 1) (j' - 1) ∧ 0 < j' ∨
            u = vertexOf (i' - 1) j' ∧ j' < i' - 1) as Hparent.
    { destruct Hsrc as [[-> ?]|[-> ?]].
      - left. split; [|done]. by rewrite vertexOf_left_parent by lia.
      - right. split; [|lia]. by rewrite vertexOf_right_parent by lia. }
    destruct IH as [[-> _]|[(i & j & t & -> & HiN & Hdesc & ->)|[-> _]]].
    + pose proof (vertexOf_range (i' - 1) (j' - 1)).
      pose proof (vertexOf_range (i' - 1) j'). lia.
    + pose proof (descent_shape _ _ _ Hdesc) as [Hi1 Hj].
      exists i', j', (t + v')%Z. rewrite Hd, Hval, (value_neg _ _ Hv').
      split_and!; [done|lia| |lia].
      assert (∃ i0, i' = S i0) as [i0 ->] by (exists (i' - 1); lia).
      replace (S i0 - 1) with i0 in * by lia.
      destruct Hparent as [[Heq ?]|[Heq ?]];
        apply vertexOf_inj in Heq as [-> ->]; try lia.
      * apply (descent_down input i0 (j' - 1) t j' v'); [done|right; lia|done|done].
      * apply (descent_down input i0 j' t j' v'); [done|by left|done|done].
    + pose proof (vertexOf_range (i' - 1) (j' - 1)).
      pose proof (vertexOf_range (i' - 1) j').
      pose proof (tri_mono (i' - 1) N). lia.
  - (* the edge to the sink *)
    injection Hc as Hu Hd Hval. right.
    rewrite Hd, sink_vertex by lia. split_and!; [done|lia|].
    destruct IH as [[-> _]|[(i & j & t & -> & HiN & Hdesc & ->)|[-> _]]]; [lia| |lia].
    pose proof (descent_shape _ _ _ Hdesc) as [Hi1 Hj].
    apply vertexOf_inj in Hu as [-> ->]; [|lia..].
    exists j', t. split; [done|]. rewrite Hval, IntFacts.neg_0. lia.
Qed.

Lemma readInput_pathsInRange : pathsInRange (readInput N input).
Proof.
  intros v w Hp.
  assert (∀ i j t, i ≤ N → descent input i j t →
            (Int.INT_MIN < - t < Int.INT_MAX)%Z) as Hd.
  { intros i j t Hi Ht. pose proof (descent_bound _ _ _ Ht).
    pose proof (descent_shape _ _ _ Ht).
    assert (0 ≤ B)%Z by nia.
    unfold Int.INT_MIN, Int.INT_MAX in *. nia. }
  apply path_descent in Hp
    as [[_ ->]|[(i & j & t & _ & Hi & Ht & ->)|(_ & _ & j & t & Ht & ->)]].
  - done.
  - by apply (Hd i j).
  - by apply (Hd N j).
Qed.



End descents.



(** ** Step 1 on any graph *)

Section any_graph.
Local Open Scope nat_scope.

Variable g : DAG.

(** Distinct vertices of the graph are at most [vertexAmount] many. *)
Lemma distinct_vertices_bound (l : list nat) :
  NoDup l → (∀ w, w ∈ l → w < vertexAmount g) → length l ≤ vertexAmount g.
Proof.
  intros Hnd Hl.
  assert (l ⊆+ seq 0 (vertexAmount g)) as Hsub.
  { apply NoDup_submseteq; [done|].
    intros w Hw. apply elem_of_seq. split; [lia|]. cbn. by apply Hl. }
  apply submseteq_length in Hsub. by rewrite length_seq in Hsub.
Qed.

Lemma visitInv_mark grey st u :
  visitInv g grey st → visited st !! u = Some false →
  visitInv g (u :: grey) (mkSort (<[u := true]> (visited st)) (s st)).
Proof.
  intros [Hlen Hvis Hdis Hnd Hgrey] Hu.
  assert ((u ∉ s st) ∧ (u ∉ grey)) as [Hus Hug].
  { split; intros Hin.
    - assert (visited st !! u = Some true) by (apply Hvis; tauto). congruence.
    - assert (visited st !! u = Some true) by (apply Hvis; tauto). congruence. }
  split; cbn [visited s]; [by rewrite length_insert| | |done|by apply NoDup_cons_2].
  - intros w. destruct (decide (w = u)) as [->|Hne].
    + rewrite list_lookup_insert_eq by (by apply lookup_lt_Some in Hu).
      split; [intros _; right; left|done].
    + rewrite list_lookup_insert_ne by done. rewrite Hvis, elem_of_cons. tauto.
  - intros w Hw [->|Hwg]%elem_of_cons; [done|]. by apply (Hdis w).
Qed.

Lemma visitInv_push grey st u :
  visitInv g (u :: grey) st → visitInv g grey (mkSort (visited st) (u :: s st)).
Proof.
  intros [Hlen Hvis Hdis Hnd Hgrey].
  apply list.NoDup_cons in Hgrey as [Hug Hgrey].
  split; cbn [visited s]; [done| | | |done].
  - intros w. rewrite Hvis, !elem_of_cons. tauto.
  - intros w [->|Hw]%elem_of_cons; [done|].
    intros Hwg. apply (Hdis w Hw). by right.
  - apply NoDup_cons_2; [|done]. intros Hin. apply (Hdis u Hin). by left.
Qed.

(** The open vertices are fewer than the vertices of the graph as long as
    one of them is not marked. *)
Lemma visitInv_room grey st u :
  visitInv g grey st → visited st !! u = Some false →
  S (length grey) ≤ vertexAmount g.
Proof.
  intros Hinv Hu.
  pose proof (visitInv_mark _ _ _ Hinv Hu) as [Hlen Hvis _ _ Hgrey].
  cbn [visited s] in *.
  apply (distinct_vertices_bound (u :: grey)); [done|].
  intros w Hw. assert (<[u:=true]> (visited st) !! w = Some true) as Hlook
    by (apply Hvis; by right).
  apply lookup_lt_Some in Hlook. by rewrite Hlen in Hlook.
Qed.

Lemma visitSuccessors_any fuel u grey
    (Hrec : ∀ v grey' st,
       vertexAmount g ≤ fuel + length grey' →
       visitInv g grey' st → visited st !! v = Some false →
       ∃ st', topologicalSortRecursive fuel g v st = Some st' ∧
              visitInv g grey' st' ∧ ∃ new, s st' = v :: new ++ s st)
    (Hfuel : vertexAmount g ≤ fuel + S (length grey)) es : ∀ st,
  visitInv g (u :: grey) st →
  ∃ st', visitSuccessors (topologicalSortRecursive fuel g) es st = Some st' ∧
         visitInv g (u :: grey) st' ∧ ∃ new, s st' = new ++ s st.
Proof.
  induction es as [|edge es IH]; intros st Hinv.
  { exists st. split_and!; [done|done|by exists []]. }
  cbn [visitSuccessors].
  destruct (visited st !! vertexNum edge) as [[|]|] eqn:Hlook; [by apply IH| |by apply IH].
  destruct (Hrec (vertexNum edge) (u :: grey) st) as (st1 & -> & Hinv1 & new1 & Hnew1);
    [done..|].
  destruct (IH st1 Hinv1) as (st' & Hrun & Hinv' & new & Hnew).
  exists st'. split_and!; [done|done|].
  exists (new ++ vertexNum edge :: new1). rewrite Hnew, Hnew1.
  by rewrite <- app_assoc.
Qed.

(** A traversal from a vertex that is not marked ends, whatever the edges,
    within a recursion depth of the number of vertices. *)
Lemma topologicalSortRecursive_any fuel : ∀ u grey st,
  vertexAmount g ≤ fuel + length grey →
  visitInv g grey st → visited st !! u = Some false →
  ∃ st', topologicalSortRecursive fuel g u st = Some st' ∧
         visitInv g grey st' ∧ ∃ new, s st' = u :: new ++ s st.
Proof.
  induction fuel as [|fuel IH]; intros u grey st Hfuel Hinv Hlook.
  { pose proof (visitInv_room _ _ _ Hinv Hlook). lia. }
  cbn [topologicalSortRecursive].
  destruct (visitSuccessors_any fuel u grey IH ltac:(lia) (edges g u)
              (mkSort (<[u := true]> (visited st)) (s st)))
    as (st' & -> & Hinv' & new & Hnew); [by apply visitInv_mark|].
  eexists. split; [done|]. split; [by apply visitInv_push|].
  exists new. cbn [s] in *. by rewrite Hnew.
Qed.

Lemma sortFrom_any n : ∀ i st,
  i + n = vertexAmount g → visitInv g [] st →
  (∀ w, w < i → visited st !! w = Some true) →
  ∃ st', sortFrom g (seq i n) st = Some st' ∧ visitInv g [] st' ∧
         ∀ w, w < vertexAmount g → visited st' !! w = Some true.
Proof.
  induction n as [|n IH]; intros i st Hi Hinv Hdone.
  { exists st. split_and!; [done..|]. intros w Hw. apply Hdone. lia. }
  cbn [seq sortFrom].
  destruct (lookup_lt_is_Some_2 (visited st) i) as [[|] Hlook];
    [rewrite (vis_length _ _ _ Hinv); lia| |]; rewrite Hlook.
  - apply IH; [lia|done|]. intros w Hw.
    destruct (decide (w = i)) as [->|]; [done|]. apply Hdone. lia.
  - destruct (topologicalSortRecursive_any (vertexAmount g) i [] st)
      as (st1 & -> & Hinv1 & new & Hnew); [cbn; lia|done|done|].
    apply IH; [lia|done|]. intros w Hw.
    apply (vis_visited _ _ _ Hinv1). left. rewrite Hnew.
    destruct (decide (w = i)) as [->|]; [left|].
    right. apply elem_of_app. right.
    assert (visited st !! w = Some true) as Hvw by (apply Hdone; lia).
    apply (vis_visited _ _ _ Hinv) in Hvw as [?|?%elem_of_nil]; done.
Qed.

(** Step 1 ends on every graph, with cycles or without, and leaves every
    vertex on the stack exactly once. *)
Theorem topologicalSort_any_graph :
  wellFormed g →
  ∃ order, topologicalSort g = Some order ∧ NoDup order ∧
           ∀ v, v ∈ order ↔ v < vertexAmount g.
Proof.
  intros _.
  destruct (sortFrom_any (vertexAmount g) 0
              (mkSort (replicate (vertexAmount g) false) []))
    as (st & Hrun & Hinv & Hall); [done| |lia|].
  { split; cbn [visited s]; [apply length_replicate| | |constructor|constructor].
    - intros w. rewrite lookup_replicate. split; [by intros [? _]|].
      by intros [?%elem_of_nil|?%elem_of_nil].
    - by intros w ?%elem_of_nil. }
  exists (s st). unfold topologicalSort. rewrite Hrun.
  split_and!; [done|apply Hinv|]. intros v. split.
  - intros Hv. assert (visited st !! v = Some true) as Hlook
      by (apply (vis_visited _ _ _ Hinv); by left).
    apply lookup_lt_Some in Hlook. by rewrite (vis_length _ _ _ Hinv) in Hlook.
  - intros Hv. apply Hall, (vis_visited _ _ _ Hinv) in Hv as [?|?%elem_of_nil]; done.
Qed.

End any_graph.

(** ** The solver and the builder, summed up *)

Section summary.
Local Open Scope nat_scope.

(** On a graph whose edges lead to higher vertices and whose path weights
    from the source all lie strictly between [INT_MIN] and [INT_MAX],
    Step 2 leaves in [sum[v]] the least weight of a path from the source
    to [v], and [INT_MAX] when there is none. *)
Theorem relax_distances g :
  increasing g → pathsInRange g → 0 < vertexAmount g →
  ∃ order, topologicalSort g = Some order ∧
    ∀ v, v < vertexAmount g →
      (relax g order (initialSum (vertexAmount g)) !! v = Some Int.INT_MAX ∧
       ∀ w, ¬ path g 0 v w) ∨
      (∃ x, relax g order (initialSum (vertexAmount g)) !! v = Some x ∧
            x ≠ Int.INT_MAX ∧ path g 0 v x ∧ ∀ w, path g 0 v w → (x ≤ w)%Z).
Proof.
  intros Hg Hrange HV.
  destruct (topologicalSort_spec g Hg) as (order & Hsort & Hsorted & Hnd & Hall).
  exists order. split; [done|]. intros v Hv. by apply relax_shortest.
Qed.

(** As long as the count fits an [int], the graph has
    [N (N + 1) / 2 + 2] vertices and as many adjacency lists, whatever the
    numbers are. *)
Theorem readInput_size N input :
  (Z.of_nat (tri N + 2) ≤ Int.INT_MAX)%Z →
  vertexAmount (readInput N input) = N * (N + 1) / 2 + 2 ∧
  length (edgeList (readInput N input)) = vertexAmount (readInput N input).
Proof.
  intros _. split; [|apply readInput_edges_wf].
  rewrite readInput_vertexAmount. f_equal.
  rewrite <- tri_formula, Nat.mul_comm. symmetry. by apply Nat.div_mul.
Qed.

(** No edge of the graph closes a path: the graph has no cycle. *)
Theorem readInput_acyclic N input u v w e :
  path (readInput N input) u v w → e ∈ edges (readInput N input) v →
  vertexNum e ≠ u.
Proof.
  intros Hp He. apply (path_le _ (readInput_edges_wf N input)) in Hp.
  apply readInput_edges_wf in He. lia.
Qed.

Lemma numAfter_app input extra k :
  k ≤ length input → numAfter (input ++ extra) k = numAfter input k.
Proof. intros Hk. unfold numAfter. by rewrite take_app_le. Qed.

(** The builder reads the [N (N + 1) / 2] numbers of the pyramid (one
    number when there is no row) and nothing that follows them. *)
Theorem readInput_reads_prefix N input extra :
  Nat.max 1 (tri N) ≤ length input →
  readInput N (input ++ extra) = readInput N input.
Proof.
  intros Hlen. rewrite !readInput_calls. f_equal.
  unfold pyramidCalls. rewrite numAfter_app by lia.
  destruct (isPrime (numAfter input 1)); [done|]. f_equal.
  apply Forall_bind_ext, list.Forall_forall. intros i Hi%elem_of_seq.
  apply Forall_bind_ext, list.Forall_forall. intros j Hj%elem_of_seq.
  pose proof (vertexOf_range i j). pose proof (tri_mono i N).
  by rewrite numAfter_app by lia.
Qed.

(** The paths from the source to the sink are the ways down to the last
    row, with the opposite weight. *)
Theorem sink_paths_are_descents N input (B w : Z) :
  2 ≤ N → tri N ≤ length input →
  Forall (λ v, - B ≤ v ≤ B)%Z input → (Z.of_nat N * B < Int.INT_MAX)%Z →
  path (readInput N input) 0 (tri N + 1) w ↔
  ∃ j t, descent input N j t ∧ w = (- t)%Z.
Proof.
  intros HN Hlen HB HNB. assert (1 ≤ N) as HN1 by lia. split.
  - intros Hp. pose proof (vertexOf_range) as Hr.
    apply (path_descent N input B HN1 Hlen HB HNB) in Hp
      as [[? _]|[(i & j & t & Heq & Hi & Ht & _)|(_ & _ & j & t & Ht & ->)]]; [lia| |].
    + pose proof (descent_shape N input HN1 Hlen _ _ _ Ht). pose proof (Hr i j).
      pose proof (tri_mono i N). lia.
    + by exists j, t.
  - intros (j & t & Ht & ->). by apply (descent_sink N input B HN1 Hlen HB HNB j).
Qed.

End summary.

(** ** [isPrime], Step 2, Step 3 and [addEdge] on their own *)

Section on_their_own.
Local Open Scope nat_scope.

(** Below [46337 * 46337 = 2147117569], the last square of the loop that
    fits an [int], [isPrime] answers true on the primes and on nothing
    else. *)
Theorem isPrime_exact_below_last_square n :
  (n < 2147117569)%Z → isPrime n = true ↔ prime n.
Proof. apply isPrime_spec. Qed.

(** On every [int], also where [i * i] wraps around, what [isPrime] takes
    for a prime is one: the test errs on one side only. *)
Theorem isPrime_true_is_prime n :
  Int.in_range n → isPrime n = true → prime n.
Proof. apply isPrime_sound. Qed.

(** The loop of [isPrime] ends on every [int]: past the squares that fit,
    the counter meets [num] or a divisor before it leaves the range. *)
Theorem isPrime_loop_ends n : Int.in_range n → is_Some (isPrime_run n).
Proof. apply isPrime_run_total. Qed.

(** The relaxation never makes a sum greater: on any graph, with cycles
    or without, for any order of the vertices and any sums it starts
    from, also where an addition wraps around. *)
Theorem relax_never_grows g order (sum : list Z) k x :
  wellFormed g → length sum = vertexAmount g →
  Forall (λ u, u < vertexAmount g) order →
  sum !! k = Some x →
  length (relax g order sum) = length sum ∧
  ∃ x', relax g order sum !! k = Some x' ∧ (x' ≤ x)%Z.
Proof. intros _ _ _ Hk. split; [apply length_relax|by apply relax_le]. Qed.

(** Step 3 prints the opposite of the sum of the highest vertex whose sum
    is not [INT_MAX], and "does not exist" only when every sum is
    [INT_MAX]. *)
Theorem printSum_prints_highest (sum : list Z) n :
  n ≤ length sum →
  (printSum sum n = DoesNotExist ∧ ∀ k, k < n → sum !! k = Some Int.INT_MAX) ∨
  (∃ i x, i < n ∧ sum !! i = Some x ∧ x ≠ Int.INT_MAX ∧
          (∀ k, i < k < n → sum !! k = Some Int.INT_MAX) ∧
          printSum sum n = MaximumSum (Int.neg x)).
Proof. apply printSum_highest. Qed.

(** On a graph whose edges lead to higher vertices and whose path weights
    from the source all lie strictly between [INT_MIN] and [INT_MAX], the
    solver prints the greatest sum of a path (the opposite of the least
    weight) from the source to the highest vertex that a path reaches. *)
Theorem maximumSum_prints_longest_path g :
  increasing g → pathsInRange g → 0 < vertexAmount g →
  ∃ v x, path g 0 v x ∧ (∀ w, path g 0 v w → (x ≤ w)%Z) ∧
         (∀ v' w, v < v' → ¬ path g 0 v' w) ∧
         maximumSum g = Some (MaximumSum (- x)).
Proof. apply maximumSum_highest_reachable. Qed.

(** After any calls of [addEdge] on a new graph, the adjacency list of a
    vertex holds the calls made for it, in the order they were made, with
    the opposite weights; the calls leave the number of vertices alone. *)
Theorem addEdge_calls_in_order V calls u :
  u < V → Forall (λ c, c.1.1 < V) calls →
  vertexAmount (addEdges (newDAG V) calls) = V ∧
  edges (addEdges (newDAG V) calls) u
  = (λ c, mkEdge c.1.2 (Int.neg c.2)) <$> filter (λ c, c.1.1 = u) calls.
Proof.
  intros Hu _. split; [apply vertexAmount_addEdges|].
  by rewrite edges_addEdges_new, decide_True.
Qed.

End on_their_own.

(** ** Instances *)

Section instances.
Local Open Scope nat_scope.

Lemma isPrime_exact_below_last_square_witness :
  isPrime 7919 = true ↔ prime 7919.
Proof. apply (isPrime_exact_below_last_square 7919). lia. Defined.

Lemma isPrime_true_is_prime_witness : prime 7919.
Proof.
  apply (isPrime_true_is_prime 7919); [IntFacts.int_range|vm_compute; reflexivity].
Defined.

Lemma isPrime_loop_ends_witness : is_Some (isPrime_run 2147483647).
Proof. apply (isPrime_loop_ends 2147483647). IntFacts.int_range. Defined.

Lemma relax_never_grows_witness :
  length (relax (readInput 3 [4; 1; 6; 2; 8; 3]%Z) [0; 1; 3] (initialSum 8))
  = length (initialSum 8) ∧
  ∃ x', relax (readInput 3 [4; 1; 6; 2; 8; 3]%Z) [0; 1; 3] (initialSum 8) !! 3
        = Some x' ∧ (x' ≤ Int.INT_MAX)%Z.
Proof.
  apply (relax_never_grows (readInput 3 [4; 1; 6; 2; 8; 3]%Z) [0; 1; 3]
           (initialSum 8) 3 Int.INT_MAX).
  - split; [reflexivity|]. repeat constructor; cbn; lia.
  - reflexivity.
  - repeat constructor; cbn; lia.
  - reflexivity.
Defined.

Lemma addEdge_calls_in_order_witness :
  vertexAmount (addEdges (newDAG 3) [(0, 1, 4%Z); (0, 2, 5%Z); (1, 2, 6%Z)]) = 3 ∧
  edges (addEdges (newDAG 3) [(0, 1, 4%Z); (0, 2, 5%Z); (1, 2, 6%Z)]) 0
  = (λ c, mkEdge c.1.2 (Int.neg c.2))
      <$> filter (λ c, c.1.1 = 0) [(0, 1, 4%Z); (0, 2, 5%Z); (1, 2, 6%Z)].
Proof.
  apply (addEdge_calls_in_order 3 [(0, 1, 4%Z); (0, 2, 5%Z); (1, 2, 6%Z)] 0);
    [lia|repeat constructor; cbn; lia].
Defined.

Lemma printSum_prints_highest_witness :
  (printSum [0; -4; Int.INT_MAX]%Z 3 = DoesNotExist ∧
   ∀ k, k < 3 → [0; -4; Int.INT_MAX]%Z !! k = Some Int.INT_MAX) ∨
  (∃ i x, i < 3 ∧ [0; -4; Int.INT_MAX]%Z !! i = Some x ∧ x ≠ Int.INT_MAX ∧
          (∀ k, i < k < 3 → [0; -4; Int.INT_MAX]%Z !! k = Some Int.INT_MAX) ∧
          printSum [0; -4; Int.INT_MAX]%Z 3 = MaximumSum (Int.neg x)).
Proof. apply (printSum_prints_highest [0; -4; Int.INT_MAX]%Z 3). cbn. lia. Defined.

(** The pyramid of the example: numbers within 8, three rows. *)
Lemma example_in_range : pathsInRange (readInput 3 [4; 1; 6; 2; 8; 3]%Z).
Proof.
  apply (readInput_pathsInRange 3 [4; 1; 6; 2; 8; 3]%Z 8);
    [lia|cbn; lia|repeat constructor; lia|done].
Defined.


Lemma relax_distances_witness :
  ∃ order, topologicalSort (readInput 3 [4; 1; 6; 2; 8; 3]%Z) = Some order ∧
    ∀ v, v < vertexAmount (readInput 3 [4; 1; 6; 2; 8; 3]%Z) →
      (relax (readInput 3 [4; 1; 6; 2; 8; 3]%Z) order
         (initialSum (vertexAmount (readInput 3 [4; 1; 6; 2; 8; 3]%Z))) !! v
       = Some Int.INT_MAX ∧
       ∀ w, ¬ path (readInput 3 [4; 1; 6; 2; 8; 3]%Z) 0 v w) ∨
      (∃ x, relax (readInput 3 [4; 1; 6; 2; 8; 3]%Z) order
              (initialSum (vertexAmount (readInput 3 [4; 1; 6; 2; 8; 3]%Z))) !! v
            = Some x ∧
            x ≠ Int.INT_MAX ∧ path (readInput 3 [4; 1; 6; 2; 8; 3]%Z) 0 v x ∧
            ∀ w, path (readInput 3 [4; 1; 6; 2; 8; 3]%Z) 0 v w → (x ≤ w)%Z).
Proof.
  apply (relax_distances (readInput 3 [4; 1; 6; 2; 8; 3]%Z));
    [apply readInput_edges_wf|apply example_in_range
    |rewrite readInput_vertexAmount; lia].
Defined.

Lemma maximumSum_prints_longest_path_witness :
  ∃ v x, path (readInput 3 [4; 1; 6; 2; 8; 3]%Z) 0 v x ∧
         (∀ w, path (readInput 3 [4; 1; 6; 2; 8; 3]%Z) 0 v w → (x ≤ w)%Z) ∧
         (∀ v' w, v < v' → ¬ path (readInput 3 [4; 1; 6; 2; 8; 3]%Z) 0 v' w) ∧
         maximumSum (readInput 3 [4; 1; 6; 2; 8; 3]%Z) = Some (MaximumSum (- x)).
Proof.
  apply (maximumSum_prints_longest_path (readInput 3 [4; 1; 6; 2; 8; 3]%Z));
    [apply readInput_edges_wf|apply example_in_range
    |rewrite readInput_vertexAmount; lia].
Defined.



(** The cell of the 2 is forbidden and keeps its edges to the 1 and to
    the 8 below it. *)
Lemma edges_of_cell_witness :
  mkEdge 5 (Int.neg 8) ∈ edges (readInput 3 [4; 2; 6; 1; 8; 3]%Z) (vertexOf 2 0) ↔
  ∃ j' v, (j' = 0 ∨ j' = 1) ∧
          [4; 2; 6; 1; 8; 3]%Z !! (vertexOf 3 j' - 1) = Some v ∧
          isPrime v = false ∧
          mkEdge 5 (Int.neg 8) = mkEdge (vertexOf 3 j') (Int.neg v).
Proof.
  apply (edges_of_cell 3 [4; 2; 6; 1; 8; 3]%Z) with 4%Z;
    [cbn; lia|done|done|lia|lia|lia].
Defined.

Lemma edges_of_source_witness :
  edges (readInput 3 [4; 1; 6; 2; 8; 3]%Z) 0 = [mkEdge 1 (Int.neg 4)].
Proof. by apply (edges_of_source 3 [4; 1; 6; 2; 8; 3]%Z 4). Defined.

Lemma readInput_size_witness :
  (Z.of_nat (tri 3 + 2) ≤ Int.INT_MAX)%Z ∧
  vertexAmount (readInput 3 [4; 1; 6; 2; 8; 3]%Z) = 3 * (3 + 1) / 2 + 2 ∧
  length (edgeList (readInput 3 [4; 1; 6; 2; 8; 3]%Z))
  = vertexAmount (readInput 3 [4; 1; 6; 2; 8; 3]%Z).
Proof.
  split; [by vm_compute|].
  apply (readInput_size 3 [4; 1; 6; 2; 8; 3]%Z). by vm_compute.
Defined.

Lemma edge_weight_witness :
  (vertexNum (mkEdge 5 (-8)) = tri 3 + 1 ∧ edgeWeight (mkEdge 5 (-8)) = 0%Z ∧ 2 ≤ 3) ∨
  (∃ v, 1 ≤ vertexNum (mkEdge 5 (-8)) ≤ tri 3 ∧
        [4; 1; 6; 2; 8; 3]%Z !! (vertexNum (mkEdge 5 (-8)) - 1) = Some v ∧
        isPrime v = false ∧ edgeWeight (mkEdge 5 (-8)) = Int.neg v).
Proof.
  apply (edge_weight 3 [4; 1; 6; 2; 8; 3]%Z) with 2; [lia|cbn; lia|].
  vm_compute. left.
Defined.

Lemma readInput_acyclic_witness :
  vertexNum (mkEdge 1 (-4)) ≠ 0.
Proof.
  apply (readInput_acyclic 3 [4; 1; 6; 2; 8; 3]%Z 0 0 0 (mkEdge 1 (-4)));
    [constructor|vm_compute; left].
Defined.

Lemma readInput_reads_prefix_witness :
  readInput 2 ([4; 1; 6] ++ [9; 9])%Z = readInput 2 [4; 1; 6]%Z.
Proof. apply (readInput_reads_prefix 2 [4; 1; 6]%Z [9; 9]%Z). cbn. lia. Defined.

Lemma sink_paths_are_descents_witness :
  path (readInput 3 [4; 1; 6; 2; 8; 3]%Z) 0 (tri 3 + 1) (-18) ↔
  ∃ j t, descent [4; 1; 6; 2; 8; 3]%Z 3 j t ∧ (-18)%Z = (- t)%Z.
Proof.
  apply (sink_paths_are_descents 3 [4; 1; 6; 2; 8; 3]%Z 8 (-18));
    [lia|cbn; lia|repeat constructor; lia|done].
Defined.

(** Two vertices on a cycle. *)
Lemma topologicalSort_any_graph_witness :
  ∃ order, topologicalSort (mkDAG 2 [[mkEdge 1 0]; [mkEdge 0 0]]) = Some order ∧
           NoDup order ∧ ∀ v, v ∈ order ↔ v < 2.
Proof.
  apply (topologicalSort_any_graph (mkDAG 2 [[mkEdge 1 0]; [mkEdge 0 0]])).
  split; [done|]. repeat constructor; cbn; lia.
Defined.

End instances.
